(** * Boids2D: the per-tick agent update of [boids2d.py]

    A shallow embedding of the simulation core of [boids2d.py]: the class
    [boid2D] (neighbour discovery [findnear], the steering rule
    [adjustheading], motion integration [movetick]), the module-level
    globals that parametrise it, the slider callbacks of [boidrender]
    that write those globals, and the two loops of [boidrender.update].

    Numbers.  Python floats are idealised as the real numbers [R]: [+],
    [-], [*], [/], [math.fabs] and comparisons are the real operations,
    [x**2] is [x ^ 2], and [math.sqrt] is the real square root on
    non-negative arguments and raises [ValueError] on negative ones.
    Rounding, overflow and NaN are outside this model.

    Errors.  A raised exception is [None] in the option monad.

    Randomness.  [random.random()] is an oracle [rnd : nat -> R] together
    with a counter of the calls made so far: the [k]-th call returns
    [rnd k].

    Drawing on the Tk canvas has no effect on the simulated state and is
    left out of [update]. *)

From Stdlib Require Import Reals Lra ZArith List Permutation Bool Lia.
Import ListNotations.
Open Scope R_scope.

(** ** Exceptions and loops *)

Definition bind {A B : Type} (m : option A) (k : A -> option B) : option B :=
  match m with
  | Some a => k a
  | None => None
  end.

Notation "x <- m ;; k" := (bind m (fun x => k))
  (at level 61, m at next level, right associativity).

(** [for x in l: s = body x s], stopping at the first exception. *)
Fixpoint for_each {A S : Type} (body : A -> S -> option S) (l : list A) (s : S)
  : option S :=
  match l with
  | [] => Some s
  | x :: rest => s' <- body x s ;; for_each body rest s'
  end.

(** ** Numbers *)

Definition Rltb (x y : R) : bool := if Rlt_dec x y then true else false.
Definition Rgtb (x y : R) : bool := Rltb y x.
Definition Reqb (x y : R) : bool := if Req_dec_T x y then true else false.

(** [math.sqrt]: "math domain error" on a negative argument. *)
Definition math_sqrt (x : R) : option R :=
  if Rlt_dec x 0 then None else Some (sqrt x).

(** ** Two-element lists *)

(** [pos] and [heading] are Python lists of length two, only ever indexed
    by [i in range(2)]. *)
Definition vec : Type := (R * R)%type.

Inductive axis : Type := ax0 | ax1.

Definition vget (v : vec) (i : axis) : R :=
  match i with ax0 => fst v | ax1 => snd v end.

Definition vset (v : vec) (i : axis) (x : R) : vec :=
  match i with ax0 => (x, snd v) | ax1 => (fst v, x) end.

(** [for i in range(2): s = body i s] *)
Definition for_axes {S : Type} (body : axis -> S -> option S) (s : S) : option S :=
  s' <- body ax0 s ;; body ax1 s'.

(** ** The module globals *)

Record globals : Type := mkGlobals {
  senserange : R;
  separate : R;
  align : R;
  cohere : R;
  velocity : R;
  noise : R;
  bounce : bool;
  root_sep : bool;
  showsight : bool
}.

(** The globals as [boidrender.__init__] leaves them: [defaultparams] for
    the numbers, and the flags set by [boid2D.__init__]. *)
Definition defaultparams : globals :=
  {| senserange := 50; separate := 45 / 10; align := 2; cohere := 7 / 10;
     velocity := 5; noise := 1;
     bounce := false; root_sep := true; showsight := false |}.

(** ** class boid2D *)

Record boid2D : Type := mkBoid {
  pos : vec;
  idnum : Z;
  heading : vec
}.

Definition set_heading (b : boid2D) (h : vec) : boid2D :=
  {| pos := pos b; idnum := idnum b; heading := h |}.

(** *** __init__ *)

(** [boid2D.__init__]: binds the globals from its arguments and resets
    [noise], [bounce] and [root_sep] ([showsight] is not its to write),
    then draws the angle [phi] and points the heading along it.  Returns
    the new boid, the globals and the call counter of [random.random()]. *)
Definition boid2D_init (p : vec) (id : Z)
    (senserange_ separate_ align_ cohere_ velocity_ : R)
    (rnd : nat -> R) (k : nat) (g : globals) : boid2D * globals * nat :=
  let phi := rnd k * 360 in
  ({| pos := p; idnum := id;
      heading := (cos phi * velocity_, sin phi * velocity_) |},
   mkGlobals senserange_ separate_ align_ cohere_ velocity_ 1
             false true (showsight g),
   S k).

(** *** findnear *)

Definition findnear_body (g : globals) (self boid : boid2D) (subarr : list boid2D)
  : option (list boid2D) :=
  if Rltb (Rabs (vget (pos boid) ax0 - vget (pos self) ax0)) (senserange g) &&
     Rltb (Rabs (vget (pos boid) ax1 - vget (pos self) ax1)) (senserange g)
  then
    d <- math_sqrt ((vget (pos boid) ax0 - vget (pos self) ax0) ^ 2 +
                    (vget (pos boid) ax1 - vget (pos self) ax1) ^ 2) ;;
    if Rltb d (senserange g) then
      if negb (Z.eqb (idnum self) (idnum boid)) then Some (subarr ++ [boid])
      else Some subarr
    else Some subarr
  else Some subarr.

Definition findnear (g : globals) (self : boid2D) (boidarr : list boid2D)
  : option (list boid2D) :=
  for_each (findnear_body g self) boidarr [].

(** *** adjustheading *)

(** The three accumulators of [adjustheading]. *)
Record sums : Type := mkSums {
  meanpos : vec;
  meanhead : vec;
  anticrowd : vec
}.

Definition sums0 : sums :=
  {| meanpos := (0, 0); meanhead := (0, 0); anticrowd := (0, 0) |}.

(** Body of [for i in range(2)] inside [for boid in guideboids]. *)
Definition accumulate (g : globals) (self boid : boid2D) (i : axis) (s : sums)
  : option sums :=
  let mp := vset (meanpos s) i (vget (meanpos s) i + vget (pos boid) i) in
  let mh := vset (meanhead s) i (vget (meanhead s) i + vget (heading boid) i) in
  ac <- (if root_sep g then
           if Rltb (vget (pos boid) i) (vget (pos self) i) then
             r <- math_sqrt (senserange g -
                             Rabs (vget (pos self) i - vget (pos boid) i)) ;;
             Some (vget (anticrowd s) i - r)
           else
             r <- math_sqrt (senserange g -
                             Rabs (vget (pos boid) i - vget (pos self) i)) ;;
             Some (vget (anticrowd s) i + r)
         else
           Some (vget (anticrowd s) i -
                 (senserange g - Rabs (vget (pos self) i - vget (pos boid) i)) ^ 2)) ;;
  Some {| meanpos := mp; meanhead := mh; anticrowd := vset (anticrowd s) i ac |}.

(** "Convert from sums to mean values". *)
Definition to_means (n : R) (s : sums) : sums :=
  {| meanpos := (vget (meanpos s) ax0 / n, vget (meanpos s) ax1 / n);
     meanhead := (vget (meanhead s) ax0 / n, vget (meanhead s) ax1 / n);
     anticrowd := (vget (anticrowd s) ax0 / n, vget (anticrowd s) ax1 / n) |}.

(** "Adjust heading using calculated values", one axis. *)
Definition steer_axis (g : globals) (self : boid2D) (m : sums) (i : axis) : R :=
  vget (heading self) i
  - separate g * vget (anticrowd m) i
  + cohere g * (vget (meanpos m) i - vget (pos self) i)
  + align g * vget (meanhead m) i.

(** Lines 82-114: the heading as the rules leave it, before the
    normalisation at the end of [adjustheading]. *)
Definition steer (g : globals) (self : boid2D) (guideboids : list boid2D)
  : option vec :=
  if Nat.eqb (length guideboids) 0 then Some (heading self)
  else
    s <- for_each (fun boid => for_axes (accumulate g self boid)) guideboids sums0 ;;
    let m := to_means (INR (length guideboids)) s in
    Some (steer_axis g self m ax0, steer_axis g self m ax1).

(** Lines 116-123: "Normalize heading vector and adjust to set velocity". *)
Definition normalize (g : globals) (h : vec) : option vec :=
  magnitude <- math_sqrt (vget h ax0 ^ 2 + vget h ax1 ^ 2) ;;
  if Reqb magnitude 0 then Some (0, 0)
  else Some (vget h ax0 * velocity g / magnitude,
             vget h ax1 * velocity g / magnitude).

Definition adjustheading (g : globals) (self : boid2D) (guideboids : list boid2D)
  : option boid2D :=
  h <- steer g self guideboids ;;
  h' <- normalize g h ;;
  Some (set_heading self h').

(** *** movetick *)

(** Body of [for i in range(2)] in [movetick].  The state is the boid
    and the number of [random.random()] calls made so far.  The argument
    [multiplier] is carried as the source carries it. *)
Definition movetick_axis (g : globals) (bound multiplier : R) (addnoise : bool)
    (rnd : nat -> R) (i : axis) (st : boid2D * nat) : boid2D * nat :=
  let (self, k) := st in
  let p := vget (pos self) i + vget (heading self) i in
  let (h, k) :=
    if addnoise
    then (vget (heading self) i + (rnd k * noise g - noise g / 2), S k)
    else (vget (heading self) i, k) in
  if bounce g then
    if Rgtb p bound || Rltb p 0
    then (mkBoid (vset (pos self) i p) (idnum self) (vset (heading self) i (- h)), k)
    else (mkBoid (vset (pos self) i p) (idnum self) (vset (heading self) i h), k)
  else
    if Rgtb p bound
    then (mkBoid (vset (pos self) i (p - bound)) (idnum self)
                 (vset (heading self) i h), k)
    else if Rltb p 0
    then (mkBoid (vset (pos self) i (bound - p)) (idnum self)
                 (vset (heading self) i h), k)
    else (mkBoid (vset (pos self) i p) (idnum self) (vset (heading self) i h), k).

Definition movetick (g : globals) (bound multiplier : R) (addnoise : bool)
    (rnd : nat -> R) (k : nat) (self : boid2D) : boid2D * nat :=
  movetick_axis g bound multiplier addnoise rnd ax1
    (movetick_axis g bound multiplier addnoise rnd ax0 (self, k)).

(** ** class boidrender: __init__ *)

(** The list comprehension of [boidrender.__init__], for the [n] values
    of [i] still to come: two draws for the position, then the
    constructor with the numbers of [self.defaultparams]. *)
Fixpoint make_boids (bounds : R) (rnd : nat -> R) (n : nat) (i : Z) (k : nat)
    (g : globals) : list boid2D * globals * nat :=
  match n with
  | O => ([], g, k)
  | S n' =>
      let p := (rnd k * bounds, rnd (S k) * bounds) in
      let '(boid, g', k') :=
        boid2D_init p i (senserange defaultparams) (separate defaultparams)
                    (align defaultparams) (cohere defaultparams)
                    (velocity defaultparams) rnd (S (S k)) g in
      let '(rest, g'', k'') := make_boids bounds rnd n' (i + 1)%Z k' g' in
      (boid :: rest, g'', k'')
  end.

(** [boidrender.__init__], without the Tk window: [range(boids)] is empty
    for [boids <= 0]; [showsight] is reset at the end. *)
Definition boidrender_init (bounds : R) (boids : Z) (rnd : nat -> R) (k : nat)
    (g : globals) : list boid2D * globals * nat :=
  let '(boidarr, g', k') := make_boids bounds rnd (Z.to_nat boids) 0%Z k g in
  (boidarr,
   mkGlobals (senserange g') (separate g') (align g') (cohere g') (velocity g')
             (noise g') (bounce g') (root_sep g') false,
   k').

(** ** class boidrender: the slider callbacks *)

(** [newval] is the number the slider hands over; [float(newval)] is that
    number.  None of the callbacks has a [raise] or a test. *)
Definition setcohere (newval : R) (g : globals) : globals :=
  mkGlobals (senserange g) (separate g) (align g) newval (velocity g) (noise g)
            (bounce g) (root_sep g) (showsight g).

Definition setseparate (newval : R) (g : globals) : globals :=
  mkGlobals (senserange g) newval (align g) (cohere g) (velocity g) (noise g)
            (bounce g) (root_sep g) (showsight g).

Definition setalign (newval : R) (g : globals) : globals :=
  mkGlobals (senserange g) (separate g) newval (cohere g) (velocity g) (noise g)
            (bounce g) (root_sep g) (showsight g).

Definition setnoise (newval : R) (g : globals) : globals :=
  mkGlobals (senserange g) (separate g) (align g) (cohere g) (velocity g) newval
            (bounce g) (root_sep g) (showsight g).

Definition setvelocity (newval : R) (g : globals) : globals :=
  mkGlobals (senserange g) (separate g) (align g) (cohere g) newval (noise g)
            (bounce g) (root_sep g) (showsight g).

Definition setrange (newval : R) (g : globals) : globals :=
  mkGlobals newval (separate g) (align g) (cohere g) (velocity g) (noise g)
            (bounce g) (root_sep g) (showsight g).

Definition updatebounce (g : globals) : globals :=
  mkGlobals (senserange g) (separate g) (align g) (cohere g) (velocity g) (noise g)
            (negb (bounce g)) (root_sep g) (showsight g).

Definition updatesight (g : globals) : globals :=
  mkGlobals (senserange g) (separate g) (align g) (cohere g) (velocity g) (noise g)
            (bounce g) (root_sep g) (negb (showsight g)).

(** ** class boidrender: update *)

(** First loop of [update].  The boid objects are mutated in place, so the
    array a boid searches holds the boids before it ([done]) with the
    headings this loop has already given them, then itself and the boids
    after it ([todo]) with the headings of the previous tick. *)
Fixpoint update_headings (g : globals) (done todo : list boid2D)
  : option (list boid2D) :=
  match todo with
  | [] => Some done
  | boid :: rest =>
      near <- findnear g boid (done ++ boid :: rest) ;;
      boid' <- adjustheading g boid near ;;
      update_headings g (done ++ [boid']) rest
  end.

(** Second loop of [update]: [boid.movetick(self.bounds, 0.5, True)]. *)
Fixpoint update_positions (g : globals) (bounds : R) (rnd : nat -> R) (k : nat)
    (todo : list boid2D) : list boid2D * nat :=
  match todo with
  | [] => ([], k)
  | boid :: rest =>
      let (boid', k') := movetick g bounds (1 / 2) true rnd k boid in
      let (rest', k'') := update_positions g bounds rnd k' rest in
      (boid' :: rest', k'')
  end.

Definition update (g : globals) (bounds : R) (rnd : nat -> R) (k : nat)
    (boidarr : list boid2D) : option (list boid2D * nat) :=
  l <- update_headings g [] boidarr ;;
  Some (update_positions g bounds rnd k l).

(** * Vocabulary of the properties *)

(** ** Neighbourhood *)

(** Euclidean distance between the positions of two boids. *)
Definition distance (a b : boid2D) : R :=
  sqrt ((vget (pos b) ax0 - vget (pos a) ax0) ^ 2 +
        (vget (pos b) ax1 - vget (pos a) ax1) ^ 2).

(** The neighbour relation as the specification words it: another id, and
    strictly closer than the sensing range. *)
Definition is_neighbour (g : globals) (self b : boid2D) : bool :=
  negb (Z.eqb (idnum self) (idnum b)) && Rltb (distance self b) (senserange g).

(** ** Sums over the neighbours *)

Fixpoint Rsum (l : list R) : R :=
  match l with
  | [] => 0
  | x :: rest => x + Rsum rest
  end.

(** The argument of [math.sqrt] in root mode, for neighbour [b] and axis [i]. *)
Definition radicand (g : globals) (self b : boid2D) (i : axis) : R :=
  senserange g - Rabs (vget (pos b) i - vget (pos self) i).

(** What one neighbour adds to [anticrowd[i]], in either separation mode. *)
Definition crowd (g : globals) (self : boid2D) (i : axis) (b : boid2D) : R :=
  if root_sep g then
    if Rltb (vget (pos b) i) (vget (pos self) i)
    then - sqrt (radicand g self b i)
    else sqrt (radicand g self b i)
  else - (radicand g self b i) ^ 2.

(** No [math.sqrt] call of the accumulation loop raises on neighbour [b]. *)
Definition sqrt_defined (g : globals) (self b : boid2D) : Prop :=
  root_sep g = true -> forall i, 0 <= radicand g self b i.

(** The three sums of the accumulation loop over the list [l]. *)
Definition totals (g : globals) (self : boid2D) (l : list boid2D) : sums :=
  {| meanpos := (Rsum (map (fun b => vget (pos b) ax0) l),
                 Rsum (map (fun b => vget (pos b) ax1) l));
     meanhead := (Rsum (map (fun b => vget (heading b) ax0) l),
                  Rsum (map (fun b => vget (heading b) ax1) l));
     anticrowd := (Rsum (map (crowd g self ax0) l),
                   Rsum (map (crowd g self ax1) l)) |}.

Definition vadd (u v : vec) : vec := (fst u + fst v, snd u + snd v).

Definition sums_add (s t : sums) : sums :=
  {| meanpos := vadd (meanpos s) (meanpos t);
     meanhead := vadd (meanhead s) (meanhead t);
     anticrowd := vadd (anticrowd s) (anticrowd t) |}.

(** The heading the rules produce on axis [i], from the sums over the
    neighbours. *)
Definition rule (g : globals) (self : boid2D) (l : list boid2D) (i : axis) : R :=
  vget (heading self) i
  - separate g * (Rsum (map (crowd g self i) l) / INR (length l))
  + cohere g * (Rsum (map (fun b => vget (pos b) i) l) / INR (length l)
                - vget (pos self) i)
  + align g * (Rsum (map (fun b => vget (heading b) i) l) / INR (length l)).

(** ** The steering rule as the specification words it (root mode) *)

Definition mean_position (l : list boid2D) (i : axis) : R :=
  Rsum (map (fun b => vget (pos b) i) l) / INR (length l).

Definition mean_heading (l : list boid2D) (i : axis) : R :=
  Rsum (map (fun b => vget (heading b) i) l) / INR (length l).

(** Root mode: minus [sqrt (sense_range - |delta|)] when the neighbour's
    coordinate is less than the agent's, plus it otherwise, averaged. *)
Definition anti_crowd_root (g : globals) (self : boid2D) (l : list boid2D)
    (i : axis) : R :=
  Rsum (map (fun b =>
               if Rltb (vget (pos b) i) (vget (pos self) i)
               then - sqrt (senserange g - Rabs (vget (pos b) i - vget (pos self) i))
               else sqrt (senserange g - Rabs (vget (pos b) i - vget (pos self) i)))
            l)
  / INR (length l).

Definition spec_heading (g : globals) (self : boid2D) (l : list boid2D)
    (i : axis) : R :=
  vget (heading self) i
  - separate g * anti_crowd_root g self l i
  + cohere g * (mean_position l i - vget (pos self) i)
  + align g * mean_heading l i.

(** ** Motion *)

Definition magnitude (h : vec) : R := sqrt (vget h ax0 ^ 2 + vget h ax1 ^ 2).

(** Position of axis [i] right after [self.pos[i] + self.heading[i]]. *)
Definition raw_pos (self : boid2D) (i : axis) : R :=
  vget (pos self) i + vget (heading self) i.

(** Index of the [random.random()] call that serves axis [i] when the
    counter stood at [k] on entry. *)
Definition draw_index (k : nat) (i : axis) : nat :=
  match i with ax0 => k | ax1 => S k end.

(** Heading of axis [i] after the optional noise injection. *)
Definition noisy_heading (g : globals) (addnoise : bool) (rnd : nat -> R) (k : nat)
    (self : boid2D) (i : axis) : R :=
  if addnoise
  then vget (heading self) i + (rnd (draw_index k i) * noise g - noise g / 2)
  else vget (heading self) i.

(** Position and heading of axis [i] as [movetick] leaves them. *)
Definition moved_pos (g : globals) (bound : R) (self : boid2D) (i : axis) : R :=
  if bounce g then raw_pos self i
  else if Rgtb (raw_pos self i) bound then raw_pos self i - bound
  else if Rltb (raw_pos self i) 0 then bound - raw_pos self i
  else raw_pos self i.

Definition moved_heading (g : globals) (bound : R) (addnoise : bool)
    (rnd : nat -> R) (k : nat) (self : boid2D) (i : axis) : R :=
  if bounce g && (Rgtb (raw_pos self i) bound || Rltb (raw_pos self i) 0)
  then - noisy_heading g addnoise rnd k self i
  else noisy_heading g addnoise rnd k self i.

(** ** The two loops of [update] *)

(** Two boid states at the same place with the same id: they differ at
    most in heading, which is all that the first loop of [update] writes. *)
Definition same_place (a b : boid2D) : Prop :=
  pos a = pos b /\ idnum a = idnum b.

(** One iteration of the heading loop against a given array. *)
Definition snapshot_step (g : globals) (boidarr : list boid2D) (boid : boid2D)
  : option boid2D :=
  near <- findnear g boid boidarr ;; adjustheading g boid near.

(** The boid that one iteration leaves. *)
Definition snapshot (g : globals) (boidarr : list boid2D) (boid : boid2D) : boid2D :=
  match snapshot_step g boidarr boid with
  | Some boid' => boid'
  | None => boid
  end.

(** The random draws reach the boids by id: the boid with id [id] in a
    pass that starts at call [k] over boids with ids [ids] receives the
    pair [d id], first component for axis 0. *)
Definition draws_for (rnd : nat -> R) (k : nat) (ids : list Z) (d : Z -> R * R)
  : Prop :=
  forall j id, nth_error ids j = Some id ->
               rnd (k + 2 * j)%nat = fst (d id) /\
               rnd (S (k + 2 * j)) = snd (d id).

(** [movetick(bounds, 0.5, True)] on given draws. *)
Definition move_with (g : globals) (bounds : R) (dr : R * R) (boid : boid2D)
  : boid2D :=
  fst (movetick g bounds (1 / 2) true
         (fun n => match n with O => fst dr | S _ => snd dr end) 0 boid).

(** ** The parameter channel *)

(** The six numeric globals, each with the slider callback that writes it. *)
Inductive param : Type :=
  | p_senserange | p_separate | p_align | p_cohere | p_velocity | p_noise.

Definition param_get (p : param) (g : globals) : R :=
  match p with
  | p_senserange => senserange g
  | p_separate => separate g
  | p_align => align g
  | p_cohere => cohere g
  | p_velocity => velocity g
  | p_noise => noise g
  end.

Definition param_set (p : param) : R -> globals -> globals :=
  match p with
  | p_senserange => setrange
  | p_separate => setseparate
  | p_align => setalign
  | p_cohere => setcohere
  | p_velocity => setvelocity
  | p_noise => setnoise
  end.

(** ** Square mode and the random source *)

(** The separation signal of square mode, as [adjustheading] sums it. *)
Definition anti_crowd_square (g : globals) (self : boid2D) (l : list boid2D)
    (i : axis) : R :=
  Rsum (map (fun b =>
               - (senserange g - Rabs (vget (pos self) i - vget (pos b) i)) ^ 2) l)
  / INR (length l).

Definition square_heading (g : globals) (self : boid2D) (l : list boid2D)
    (i : axis) : R :=
  vget (heading self) i
  - separate g * anti_crowd_square g self l i
  + cohere g * (mean_position l i - vget (pos self) i)
  + align g * mean_heading l i.

(** [random.random()] returns a float in [0, 1). *)
Definition unit_draws (rnd : nat -> R) : Prop := forall n, 0 <= rnd n < 1.

(** The speed a boid has after a heading adjustment: none, or [|velocity|]. *)
Definition clamped (g : globals) (b : boid2D) : Prop :=
  heading b = (0, 0) \/ magnitude (heading b) = Rabs (velocity g).

(** ** Concrete globals, boids and draws *)

(** Slider settings under which only the alignment rule steers. *)
Definition alignment_only : globals :=
  {| senserange := 2; separate := 0; align := 1; cohere := 0;
     velocity := 1; noise := 0;
     bounce := false; root_sep := true; showsight := false |}.

(** Two boids one unit apart, flying in opposite directions. *)
Definition boid_a : boid2D := {| pos := (0, 0); idnum := 0%Z; heading := (1, 0) |}.
Definition boid_b : boid2D := {| pos := (1, 0); idnum := 1%Z; heading := (-1, 0) |}.

(** A boid at x = 0 moving left by one unit in a square of side 100. *)
Definition boid_leaving_left : boid2D :=
  {| pos := (0, 50); idnum := 3%Z; heading := (-1, 0) |}.

(** A boid at the right edge of a square of side 100, moving right. *)
Definition boid_leaving_right : boid2D :=
  {| pos := (100, 50); idnum := 2%Z; heading := (1, 0) |}.

(** The default numbers with the separation mode switched to square. *)
Definition square_mode_globals : globals :=
  {| senserange := 50; separate := 45 / 10; align := 2; cohere := 7 / 10;
     velocity := 5; noise := 1;
     bounce := false; root_sep := false; showsight := false |}.

(** Draws for two boids: the first boid served gets 1/4 twice, the second
    3/4 twice; [draws_swapped] serves them the other way round. *)
Definition draws_in_order (n : nat) : R :=
  match n with
  | O | S O => 1 / 4
  | _ => 3 / 4
  end.

Definition draws_swapped (n : nat) : R :=
  match n with
  | O | S O => 3 / 4
  | _ => 1 / 4
  end.

Definition draws_by_id (id : Z) : R * R :=
  if Z.eqb id 0 then (1 / 4, 1 / 4) else (3 / 4, 3 / 4).

(** * Properties *)

(** ** Comparisons and square roots *)

Lemma Rltb_true (x y : R) : Rltb x y = true <-> x < y.
Proof. unfold Rltb. destruct (Rlt_dec x y); split; intros; try lra; discriminate. Qed.

Lemma Rltb_false (x y : R) : Rltb x y = false <-> y <= x.
Proof. unfold Rltb. destruct (Rlt_dec x y); split; intros; try lra; discriminate. Qed.

Lemma Reqb_true (x y : R) : Reqb x y = true <-> x = y.
Proof. unfold Reqb. destruct (Req_dec_T x y); split; intros; try easy. Qed.

Lemma Reqb_false (x y : R) : Reqb x y = false <-> x <> y.
Proof. unfold Reqb. destruct (Req_dec_T x y); split; intros; try easy. Qed.

Lemma math_sqrt_defined (x : R) : 0 <= x -> math_sqrt x = Some (sqrt x).
Proof. intros Hx. unfold math_sqrt. destruct (Rlt_dec x 0); [lra | reflexivity]. Qed.

Lemma sumsq_nonneg (a b : R) : 0 <= a ^ 2 + b ^ 2.
Proof. nra. Qed.

Lemma math_sqrt_sumsq (a b : R) :
  math_sqrt (a ^ 2 + b ^ 2) = Some (sqrt (a ^ 2 + b ^ 2)).
Proof. apply math_sqrt_defined, sumsq_nonneg. Qed.

Lemma sqrt_sq_abs (a : R) : sqrt (a ^ 2) = Rabs a.
Proof. replace (a ^ 2) with (Rsqr a) by (unfold Rsqr; ring). apply sqrt_Rsqr_abs. Qed.

Lemma Rabs_le_hypot_l (a b : R) : Rabs a <= sqrt (a ^ 2 + b ^ 2).
Proof. rewrite <- sqrt_sq_abs. apply sqrt_le_1_alt. nra. Qed.

Lemma Rabs_le_hypot_r (a b : R) : Rabs b <= sqrt (a ^ 2 + b ^ 2).
Proof. rewrite <- sqrt_sq_abs. apply sqrt_le_1_alt. nra. Qed.

Lemma hypot_sq (a b : R) : sqrt (a ^ 2 + b ^ 2) ^ 2 = a ^ 2 + b ^ 2.
Proof.
  replace (sqrt (a ^ 2 + b ^ 2) ^ 2) with (Rsqr (sqrt (a ^ 2 + b ^ 2)))
    by (unfold Rsqr; ring).
  apply Rsqr_sqrt, sumsq_nonneg.
Qed.

Lemma hypot_zero (a b : R) : sqrt (a ^ 2 + b ^ 2) = 0 -> a = 0 /\ b = 0.
Proof.
  intros H. apply sqrt_eq_0 in H; [|apply sumsq_nonneg]. split; nra.
Qed.

(** ** Neighbour discovery *)

Lemma findnear_body_filter (g : globals) (self boid : boid2D) (subarr : list boid2D) :
  findnear_body g self boid subarr =
  Some (subarr ++ filter (is_neighbour g self) [boid]).
Proof.
  unfold findnear_body, is_neighbour, distance. cbn [filter].
  rewrite math_sqrt_sumsq. cbn [bind].
  set (dx := vget (pos boid) ax0 - vget (pos self) ax0).
  set (dy := vget (pos boid) ax1 - vget (pos self) ax1).
  destruct (Rltb (sqrt (dx ^ 2 + dy ^ 2)) (senserange g)) eqn:Hd.
  - apply Rltb_true in Hd.
    assert (Hx : Rltb (Rabs dx) (senserange g) = true).
    { apply Rltb_true. pose proof (Rabs_le_hypot_l dx dy). lra. }
    assert (Hy : Rltb (Rabs dy) (senserange g) = true).
    { apply Rltb_true. pose proof (Rabs_le_hypot_r dx dy). lra. }
    rewrite Hx, Hy. cbn [andb].
    destruct (negb (idnum self =? idnum boid)%Z); cbn [andb];
      [reflexivity | now rewrite app_nil_r].
  - rewrite andb_false_r, app_nil_r.
    destruct (Rltb (Rabs dx) (senserange g) && Rltb (Rabs dy) (senserange g));
      reflexivity.
Qed.

Lemma for_each_findnear (g : globals) (self : boid2D) (l subarr : list boid2D) :
  for_each (findnear_body g self) l subarr =
  Some (subarr ++ filter (is_neighbour g self) l).
Proof.
  revert subarr. induction l as [|boid rest IH]; intros subarr.
  - cbn. now rewrite app_nil_r.
  - cbn [for_each]. rewrite findnear_body_filter. cbn [bind].
    rewrite IH, <- app_assoc.
    change (boid :: rest) with ([boid] ++ rest). now rewrite filter_app.
Qed.

Lemma findnear_filter (g : globals) (self : boid2D) (l : list boid2D) :
  findnear g self l = Some (filter (is_neighbour g self) l).
Proof. unfold findnear. now rewrite for_each_findnear. Qed.

Lemma is_neighbour_spec (g : globals) (self b : boid2D) :
  is_neighbour g self b = true <->
  idnum b <> idnum self /\ distance self b < senserange g.
Proof.
  unfold is_neighbour. rewrite andb_true_iff, negb_true_iff, Z.eqb_neq, Rltb_true.
  intuition congruence.
Qed.

Lemma neighbour_rough_check (g : globals) (self b : boid2D) :
  distance self b < senserange g ->
  Rabs (vget (pos b) ax0 - vget (pos self) ax0) < senserange g /\
  Rabs (vget (pos b) ax1 - vget (pos self) ax1) < senserange g.
Proof.
  unfold distance. intros H.
  pose proof (Rabs_le_hypot_l (vget (pos b) ax0 - vget (pos self) ax0)
                              (vget (pos b) ax1 - vget (pos self) ax1)).
  pose proof (Rabs_le_hypot_r (vget (pos b) ax0 - vget (pos self) ax0)
                              (vget (pos b) ax1 - vget (pos self) ax1)).
  lra.
Qed.

(** C2.  [findnear] returns, in array order, exactly the boids of the
    array with another id and at Euclidean distance strictly below
    [senserange]: the querying boid is never returned, a boid at distance
    exactly [senserange] is not returned, and every boid that passes the
    exact distance test also passes the rough per-axis test. *)
Theorem findnear_exact (g : globals) (self : boid2D) (boidarr : list boid2D) :
  findnear g self boidarr = Some (filter (is_neighbour g self) boidarr) /\
  (forall b, In b (filter (is_neighbour g self) boidarr) <->
             In b boidarr /\ idnum b <> idnum self /\
             distance self b < senserange g) /\
  ~ In self (filter (is_neighbour g self) boidarr) /\
  (forall b, distance self b = senserange g ->
             ~ In b (filter (is_neighbour g self) boidarr)) /\
  (forall b, distance self b < senserange g ->
             Rltb (Rabs (vget (pos b) ax0 - vget (pos self) ax0)) (senserange g) &&
             Rltb (Rabs (vget (pos b) ax1 - vget (pos self) ax1)) (senserange g)
             = true).
Proof.
  split; [apply findnear_filter|].
  assert (Hin : forall b, In b (filter (is_neighbour g self) boidarr) <->
                          In b boidarr /\ idnum b <> idnum self /\
                          distance self b < senserange g).
  { intros b. rewrite filter_In, is_neighbour_spec. tauto. }
  split; [exact Hin|]. split; [|split].
  - intros H. apply Hin in H. tauto.
  - intros b Hb H. apply Hin in H. lra.
  - intros b Hb. apply neighbour_rough_check in Hb.
    apply andb_true_iff. split; apply Rltb_true; tauto.
Qed.

(** ** The steering rule in closed form *)

(** Equalities [Some {| ... |} = Some {| ... |}] between accumulators, field
    by field and component by component. *)
Ltac sums_eq :=
  repeat match goal with
         | |- Some _ = Some _ => f_equal
         | |- mkSums _ _ _ = mkSums _ _ _ => f_equal
         | |- (_, _) = (_, _) => f_equal
         end;
  ring.

Lemma Rabs_swap (a b : R) : Rabs (a - b) = Rabs (b - a).
Proof. apply Rabs_minus_sym. Qed.

Lemma accumulate_closed (g : globals) (self b : boid2D) (i : axis) (s : sums) :
  (root_sep g = true -> 0 <= radicand g self b i) ->
  accumulate g self b i s =
  Some {| meanpos := vset (meanpos s) i (vget (meanpos s) i + vget (pos b) i);
          meanhead := vset (meanhead s) i (vget (meanhead s) i + vget (heading b) i);
          anticrowd := vset (anticrowd s) i (vget (anticrowd s) i + crowd g self i b) |}.
Proof.
  intros Hr. unfold accumulate, crowd, radicand in *.
  rewrite (Rabs_swap (vget (pos self) i) (vget (pos b) i)).
  destruct (root_sep g).
  - specialize (Hr eq_refl).
    destruct (Rltb (vget (pos b) i) (vget (pos self) i));
      rewrite (math_sqrt_defined _ Hr); cbn [bind]; reflexivity.
  - cbn [bind]. reflexivity.
Qed.

Lemma accumulate_boid (g : globals) (self b : boid2D) (s : sums) :
  sqrt_defined g self b ->
  for_axes (accumulate g self b) s = Some (sums_add s (totals g self [b])).
Proof.
  intros Hb. unfold for_axes.
  rewrite accumulate_closed by (intros Hm; apply (Hb Hm)). cbn [bind].
  rewrite accumulate_closed by (intros Hm; apply (Hb Hm)).
  destruct s as [[px py] [hx hy] [cx cy]].
  unfold sums_add, totals, vadd. cbn. sums_eq.
Qed.

Lemma sums_add_assoc (s : sums) (g : globals) (self b : boid2D) (l : list boid2D) :
  sums_add (sums_add s (totals g self [b])) (totals g self l) =
  sums_add s (totals g self (b :: l)).
Proof.
  destruct s as [[px py] [hx hy] [cx cy]].
  unfold sums_add, totals, vadd. cbn. sums_eq.
Qed.

Lemma accumulate_loop (g : globals) (self : boid2D) (l : list boid2D) (s : sums) :
  Forall (sqrt_defined g self) l ->
  for_each (fun boid => for_axes (accumulate g self boid)) l s =
  Some (sums_add s (totals g self l)).
Proof.
  intros Hl. revert s. induction Hl as [|b l Hb Hl IH]; intros s.
  - cbn [for_each]. destruct s as [[px py] [hx hy] [cx cy]].
    unfold sums_add, totals, vadd. cbn. sums_eq.
  - cbn [for_each]. rewrite (accumulate_boid g self b s Hb). cbn [bind].
    rewrite IH. now rewrite sums_add_assoc.
Qed.

Lemma steer_closed (g : globals) (self : boid2D) (l : list boid2D) :
  l <> [] ->
  Forall (sqrt_defined g self) l ->
  steer g self l = Some (rule g self l ax0, rule g self l ax1).
Proof.
  intros Hne Hl. unfold steer.
  destruct l as [|b l']; [congruence|]. cbn [length Nat.eqb].
  rewrite (accumulate_loop g self (b :: l') sums0 Hl). cbn [bind].
  unfold rule, steer_axis, to_means, sums_add, totals, sums0, vadd.
  cbn [meanpos meanhead anticrowd vget fst snd length].
  rewrite !Rplus_0_l. reflexivity.
Qed.

Lemma steer_empty (g : globals) (self : boid2D) :
  steer g self [] = Some (heading self).
Proof. reflexivity. Qed.

(** Every boid that [findnear] returns is within [senserange] on each axis. *)
Lemma neighbour_sqrt_defined (g : globals) (self b : boid2D) :
  is_neighbour g self b = true -> forall i, 0 < radicand g self b i.
Proof.
  intros H i. apply is_neighbour_spec in H. destruct H as [_ H].
  apply neighbour_rough_check in H. unfold radicand. destruct i; lra.
Qed.

Lemma findnear_sqrt_defined (g : globals) (self : boid2D) (l : list boid2D) :
  Forall (sqrt_defined g self) (filter (is_neighbour g self) l).
Proof.
  apply Forall_forall. intros b Hb _ i. apply filter_In in Hb.
  apply Rlt_le, neighbour_sqrt_defined. tauto.
Qed.

Lemma normalize_total (g : globals) (h : vec) : exists h', normalize g h = Some h'.
Proof.
  unfold normalize. rewrite math_sqrt_sumsq. cbn [bind].
  destruct (Reqb _ 0); eauto.
Qed.

Lemma steer_total (g : globals) (self : boid2D) (l : list boid2D) :
  Forall (sqrt_defined g self) l -> exists h, steer g self l = Some h.
Proof.
  intros Hl. destruct l as [|b l'].
  - eexists. apply steer_empty.
  - eexists. apply steer_closed; [discriminate | exact Hl].
Qed.

Lemma adjustheading_total (g : globals) (self : boid2D) (l : list boid2D) :
  Forall (sqrt_defined g self) l ->
  exists h, adjustheading g self l = Some (set_heading self h).
Proof.
  intros Hl. unfold adjustheading.
  destruct (steer_total g self l Hl) as [h ->]. cbn [bind].
  destruct (normalize_total g h) as [h' ->]. cbn [bind]. eauto.
Qed.

Lemma rule_spec_heading (g : globals) (self : boid2D) (l : list boid2D) (i : axis) :
  root_sep g = true -> rule g self l i = spec_heading g self l i.
Proof.
  intros Hm. unfold rule, spec_heading, anti_crowd_root, mean_position, mean_heading.
  replace (map (crowd g self i) l) with
    (map (fun b =>
            if Rltb (vget (pos b) i) (vget (pos self) i)
            then - sqrt (senserange g - Rabs (vget (pos b) i - vget (pos self) i))
            else sqrt (senserange g - Rabs (vget (pos b) i - vget (pos self) i))) l);
    [reflexivity|].
  apply map_ext. intros b. unfold crowd, radicand. now rewrite Hm.
Qed.

(** C3.  In root mode, with a non-empty neighbour list on which every
    square root is defined, the loops of [adjustheading] compute per axis
    the arithmetic means of the neighbours' positions and headings and the
    averaged signed square-root separation signal, and the heading handed
    to the final normalisation is, per axis, heading - separate * anti_crowd
    + cohere * (mean_position - position) + align * mean_heading. *)
Theorem adjustheading_rule (g : globals) (self : boid2D) (guideboids : list boid2D) :
  root_sep g = true ->
  guideboids <> [] ->
  (forall b i, In b guideboids -> 0 <= radicand g self b i) ->
  steer g self guideboids =
    Some (spec_heading g self guideboids ax0, spec_heading g self guideboids ax1) /\
  adjustheading g self guideboids =
    (h' <- normalize g (spec_heading g self guideboids ax0,
                        spec_heading g self guideboids ax1) ;;
     Some (set_heading self h')).
Proof.
  intros Hm Hne Hr.
  assert (Hs : steer g self guideboids =
               Some (spec_heading g self guideboids ax0,
                     spec_heading g self guideboids ax1)).
  { rewrite steer_closed; [now rewrite !rule_spec_heading | exact Hne |].
    apply Forall_forall. intros b Hb _ i. now apply Hr. }
  split; [exact Hs|]. unfold adjustheading. now rewrite Hs.
Qed.

(** C8.  [findnear] returns a list on which every radicand
    [senserange - |delta|] of root-mode [adjustheading] is non-negative, so
    each [math.sqrt] call returns and [adjustheading] on that list, under
    the same globals, raises nothing. *)
Theorem findnear_radicand_nonneg (g : globals) (self : boid2D) (boidarr : list boid2D) :
  exists near,
    findnear g self boidarr = Some near /\
    (forall b i, In b near ->
       0 <= radicand g self b i /\
       math_sqrt (senserange g - Rabs (vget (pos self) i - vget (pos b) i)) =
         Some (sqrt (radicand g self b i)) /\
       math_sqrt (senserange g - Rabs (vget (pos b) i - vget (pos self) i)) =
         Some (sqrt (radicand g self b i))) /\
    exists self', adjustheading g self near = Some self'.
Proof.
  exists (filter (is_neighbour g self) boidarr).
  split; [apply findnear_filter|]. split.
  - intros b i Hb. apply filter_In in Hb. destruct Hb as [_ Hb].
    pose proof (neighbour_sqrt_defined g self b Hb i) as Hr.
    split; [lra|]. rewrite (Rabs_swap (vget (pos self) i)).
    unfold radicand in *. split; apply math_sqrt_defined; lra.
  - destruct (adjustheading_total g self _ (findnear_sqrt_defined g self boidarr))
      as [h Hh].
    eauto.
Qed.

(** ** Normalisation *)

Lemma normalize_zero (g : globals) (h : vec) :
  magnitude h = 0 -> normalize g h = Some (0, 0).
Proof.
  unfold magnitude, normalize. intros Hm. rewrite math_sqrt_sumsq. cbn [bind].
  apply Reqb_true in Hm. now rewrite Hm.
Qed.

Lemma normalize_nonzero (g : globals) (h : vec) :
  magnitude h <> 0 ->
  normalize g h = Some (vget h ax0 * velocity g / magnitude h,
                        vget h ax1 * velocity g / magnitude h).
Proof.
  unfold magnitude, normalize. intros Hm. rewrite math_sqrt_sumsq. cbn [bind].
  apply Reqb_false in Hm. now rewrite Hm.
Qed.

(** A rescaled heading has the magnitude [|velocity|]. *)
Lemma rescaled_magnitude (h : vec) (v : R) :
  magnitude h <> 0 ->
  magnitude (vget h ax0 * v / magnitude h, vget h ax1 * v / magnitude h) = Rabs v.
Proof.
  intros Hm.
  pose proof (hypot_sq (vget h ax0) (vget h ax1)) as Hsq. fold (magnitude h) in Hsq.
  set (m := magnitude h) in *. set (a := vget h ax0) in *. set (b := vget h ax1) in *.
  unfold magnitude. cbn [vget fst snd].
  replace ((a * v / m) ^ 2 + (b * v / m) ^ 2) with (v ^ 2).
  - apply sqrt_sq_abs.
  - replace ((a * v / m) ^ 2 + (b * v / m) ^ 2)
      with ((a ^ 2 + b ^ 2) * v ^ 2 / m ^ 2) by (field; exact Hm).
    rewrite <- Hsq. field. exact Hm.
Qed.

(** C4.  Whenever the rules of [adjustheading] yield a heading [h], the
    call returns; the new heading is the zero vector when [h] has magnitude
    zero, and otherwise has magnitude exactly the velocity global (taken in
    its domain, [velocity >= 0]). *)
Theorem adjustheading_speed_clamp (g : globals) (self : boid2D)
    (guideboids : list boid2D) (h : vec) :
  steer g self guideboids = Some h ->
  0 <= velocity g ->
  exists self',
    adjustheading g self guideboids = Some self' /\
    (magnitude h = 0 -> heading self' = (0, 0)) /\
    (magnitude h <> 0 -> magnitude (heading self') = velocity g).
Proof.
  intros Hs Hv. unfold adjustheading. rewrite Hs. cbn [bind].
  destruct (Req_dec_T (magnitude h) 0) as [Hz | Hnz].
  - rewrite (normalize_zero g h Hz). cbn [bind]. eexists. split; [reflexivity|].
    split; [reflexivity | tauto].
  - rewrite (normalize_nonzero g h Hnz). cbn [bind]. eexists. split; [reflexivity|].
    split; [tauto|]. intros _. cbn [heading set_heading].
    rewrite (rescaled_magnitude h (velocity g) Hnz). now apply Rabs_pos_eq.
Qed.

(** C5.  With an empty neighbour list [adjustheading] only rescales: the
    new heading is [k] times the old one for some [k >= 0] (velocity taken
    in its domain, [velocity >= 0]), position and id are untouched, and
    the heading is unchanged when its magnitude already equals the
    velocity global. *)
Theorem adjustheading_no_neighbours (g : globals) (self : boid2D) :
  0 <= velocity g ->
  exists self' k,
    adjustheading g self [] = Some self' /\
    0 <= k /\
    heading self' = (k * vget (heading self) ax0, k * vget (heading self) ax1) /\
    pos self' = pos self /\ idnum self' = idnum self /\
    (magnitude (heading self) = velocity g -> heading self' = heading self).
Proof.
  intros Hv. unfold adjustheading. rewrite steer_empty. cbn [bind].
  destruct (Req_dec_T (magnitude (heading self)) 0) as [Hz | Hnz].
  - rewrite (normalize_zero g _ Hz). cbn [bind]. exists (set_heading self (0, 0)), 0.
    split; [reflexivity|]. split; [lra|]. cbn [heading set_heading pos idnum].
    split; [now rewrite !Rmult_0_l|]. split; [reflexivity|]. split; [reflexivity|].
    intros _. apply hypot_zero in Hz. destruct (heading self) as [hx hy].
    cbn [vget fst snd] in Hz. destruct Hz as [-> ->]. reflexivity.
  - rewrite (normalize_nonzero g _ Hnz). cbn [bind].
    eexists. exists (velocity g / magnitude (heading self)).
    split; [reflexivity|].
    assert (Hpos : 0 < magnitude (heading self)).
    { pose proof (sqrt_pos (vget (heading self) ax0 ^ 2 + vget (heading self) ax1 ^ 2)).
      unfold magnitude in *. lra. }
    split.
    { apply Rmult_le_pos; [exact Hv|]. apply Rlt_le, Rinv_0_lt_compat, Hpos. }
    cbn [heading set_heading pos idnum].
    split; [f_equal; field; exact Hnz|]. split; [reflexivity|]. split; [reflexivity|].
    intros Heq. destruct (heading self) as [hx hy] eqn:Hh. cbn [vget fst snd].
    rewrite Heq in *. f_equal; field; exact Hnz.
Qed.

(** ** Motion integration *)

Lemma movetick_closed (g : globals) (bound multiplier : R) (addnoise : bool)
    (rnd : nat -> R) (k : nat) (self : boid2D) :
  movetick g bound multiplier addnoise rnd k self =
  (mkBoid (moved_pos g bound self ax0, moved_pos g bound self ax1)
          (idnum self)
          (moved_heading g bound addnoise rnd k self ax0,
           moved_heading g bound addnoise rnd k self ax1),
   if addnoise then S (S k) else k).
Proof.
  destruct self as [[px py] id [hx hy]].
  unfold movetick, movetick_axis, moved_pos, moved_heading, noisy_heading, raw_pos,
    draw_index.
  cbn [pos heading idnum vget vset fst snd].
  destruct addnoise, (bounce g); cbn [andb];
    destruct (Rgtb (px + hx) bound), (Rltb (px + hx) 0); cbn [orb];
    cbn [pos heading idnum vget vset fst snd];
    destruct (Rgtb (py + hy) bound), (Rltb (py + hy) 0); reflexivity.
Qed.

Lemma movetick_idnum (g : globals) (bound multiplier : R) (addnoise : bool)
    (rnd : nat -> R) (k : nat) (self : boid2D) :
  idnum (fst (movetick g bound multiplier addnoise rnd k self)) = idnum self.
Proof. now rewrite movetick_closed. Qed.

Lemma movetick_pos (g : globals) (bound multiplier : R) (addnoise : bool)
    (rnd : nat -> R) (k : nat) (self : boid2D) (i : axis) :
  vget (pos (fst (movetick g bound multiplier addnoise rnd k self))) i =
  moved_pos g bound self i.
Proof. rewrite movetick_closed. now destruct i. Qed.

Lemma movetick_heading (g : globals) (bound multiplier : R) (addnoise : bool)
    (rnd : nat -> R) (k : nat) (self : boid2D) (i : axis) :
  vget (heading (fst (movetick g bound multiplier addnoise rnd k self))) i =
  moved_heading g bound addnoise rnd k self i.
Proof. rewrite movetick_closed. now destruct i. Qed.

(** C7.  In bounce mode, on an axis where position plus heading is above
    [bound] or below zero, [movetick] leaves the position at that raw sum
    and negates the heading component (the component as it stands after
    the optional noise; without noise, the component the boid came with). *)
Theorem movetick_bounce_reflects (g : globals) (bound multiplier : R)
    (addnoise : bool) (rnd : nat -> R) (k : nat) (self : boid2D) (i : axis) :
  bounce g = true ->
  bound < raw_pos self i \/ raw_pos self i < 0 ->
  let self' := fst (movetick g bound multiplier addnoise rnd k self) in
  vget (pos self') i = vget (pos self) i + vget (heading self) i /\
  vget (heading self') i = - noisy_heading g addnoise rnd k self i /\
  (addnoise = false -> vget (heading self') i = - vget (heading self) i).
Proof.
  intros Hb Hout self'. subst self'.
  rewrite movetick_pos, movetick_heading.
  unfold moved_pos, moved_heading. rewrite Hb. cbn [andb].
  assert (Ht : Rgtb (raw_pos self i) bound || Rltb (raw_pos self i) 0 = true).
  { apply orb_true_iff. unfold Rgtb. rewrite !Rltb_true. exact Hout. }
  rewrite Ht. split; [reflexivity|]. split; [reflexivity|].
  intros ->. reflexivity.
Qed.

(** C10.  [movetick] does not read [multiplier]: any two values give the
    same boid and the same number of random draws, and the position is
    computed from the full sum position + heading, also for the value
    [1 / 2] that [update] passes. *)
Theorem movetick_ignores_multiplier (g : globals) (bound : R) (addnoise : bool)
    (rnd : nat -> R) (k : nat) (self : boid2D) (m1 m2 : R) :
  movetick g bound m1 addnoise rnd k self = movetick g bound m2 addnoise rnd k self /\
  (forall i,
     vget (pos (fst (movetick g bound (1 / 2) addnoise rnd k self))) i =
     let p := vget (pos self) i + vget (heading self) i in
     if bounce g then p
     else if Rgtb p bound then p - bound
     else if Rltb p 0 then bound - p
     else p).
Proof.
  split.
  - rewrite !movetick_closed. reflexivity.
  - intros i. rewrite movetick_pos. reflexivity.
Qed.

(** C6.  Wrap mode, bound = 100: position plus heading is -1 on axis 0,
    inside [-bound, 2 * bound], and [movetick] puts the boid at
    bound - (-1) = 101, outside [0, bound]. *)
Theorem movetick_wrap_below_zero_escapes :
  bounce defaultparams = false /\
  - 100 <= raw_pos boid_leaving_left ax0 <= 2 * 100 /\
  vget (pos (fst (movetick defaultparams 100 (1 / 2) false (fun _ => 0) 0
                           boid_leaving_left))) ax0 = 101 /\
  ~ (0 <= 101 <= 100).
Proof.
  split; [reflexivity|].
  assert (Hraw : raw_pos boid_leaving_left ax0 = -1).
  { unfold raw_pos. cbn. lra. }
  split; [rewrite Hraw; lra|]. split; [|lra].
  rewrite movetick_pos. unfold moved_pos. cbn [bounce defaultparams].
  rewrite Hraw.
  assert (H1 : Rgtb (-1) 100 = false) by (apply Rltb_false; lra).
  assert (H2 : Rltb (-1) 0 = true) by (apply Rltb_true; lra).
  rewrite H1, H2. lra.
Qed.

(** ** The slider callbacks *)

(** C9, as the code has it.  The callbacks make no domain check and have
    no error outcome: each of the six stores the number it is given in its
    own global, whatever its sign, and leaves every other global as it
    was, the five other numbers and the three flags. *)
Theorem setters_store_any_value (p : param) (newval : R) (g : globals) :
  param_get p (param_set p newval g) = newval /\
  (forall q, q <> p -> param_get q (param_set p newval g) = param_get q g) /\
  bounce (param_set p newval g) = bounce g /\
  root_sep (param_set p newval g) = root_sep g /\
  showsight (param_set p newval g) = showsight g.
Proof.
  split; [destruct p; reflexivity|].
  split; [|destruct p; repeat split; reflexivity].
  intros q Hq. destruct p, q; try reflexivity; congruence.
Qed.

(** C9 fails as stated: a negative sensing range and a negative velocity
    are accepted and take effect. *)
Lemma setrange_accepts_negative :
  senserange (setrange (-1) defaultparams) = -1 /\
  senserange (setrange (-1) defaultparams) < 0 /\
  velocity (setvelocity (-1) defaultparams) = -1 /\
  velocity (setvelocity (-1) defaultparams) < 0.
Proof. cbn. repeat split; lra. Qed.

(** ** The heading loop of [update] *)

Lemma same_place_refl (l : list boid2D) : Forall2 same_place l l.
Proof. induction l; constructor; [split; reflexivity | assumption]. Qed.

Lemma is_neighbour_same_place (g : globals) (self b b' : boid2D) :
  same_place b b' -> is_neighbour g self b = is_neighbour g self b'.
Proof. intros [Hp Hi]. unfold is_neighbour, distance. now rewrite Hp, Hi. Qed.

Lemma filter_same_place (g : globals) (self : boid2D) (l l' : list boid2D) :
  Forall2 same_place l l' ->
  Forall2 same_place (filter (is_neighbour g self) l)
                     (filter (is_neighbour g self) l').
Proof.
  induction 1 as [|b b' l l' Hb Hl IH]; cbn [filter]; [constructor|].
  rewrite (is_neighbour_same_place g self b b' Hb).
  destruct (is_neighbour g self b'); [constructor|]; assumption.
Qed.

Lemma map_same_place {B : Type} (f : boid2D -> B) (l l' : list boid2D) :
  (forall b b', same_place b b' -> f b = f b') ->
  Forall2 same_place l l' -> map f l = map f l'.
Proof.
  intros Hf. induction 1 as [|b b' l l' Hb Hl IH]; cbn [map]; [reflexivity|].
  now rewrite (Hf b b' Hb), IH.
Qed.

Lemma crowd_same_place (g : globals) (self : boid2D) (i : axis) (b b' : boid2D) :
  same_place b b' -> crowd g self i b = crowd g self i b'.
Proof. intros [Hp _]. unfold crowd, radicand. now rewrite Hp. Qed.

(** With a zero alignment weight the rule reads no neighbour heading. *)
Lemma rule_same_place (g : globals) (self : boid2D) (l l' : list boid2D) (i : axis) :
  align g = 0 -> Forall2 same_place l l' -> rule g self l i = rule g self l' i.
Proof.
  intros Ha Hl. unfold rule. rewrite Ha, !Rmult_0_l.
  rewrite (map_same_place (crowd g self i) l l' (crowd_same_place g self i) Hl).
  rewrite (map_same_place (fun b => vget (pos b) i) l l') by
    (try exact Hl; intros b b' [Hp _]; now rewrite Hp).
  now rewrite (Forall2_length Hl).
Qed.

Lemma steer_same_place (g : globals) (self : boid2D) (l l' : list boid2D) :
  align g = 0 -> Forall2 same_place l l' ->
  Forall (sqrt_defined g self) l -> Forall (sqrt_defined g self) l' ->
  steer g self l = steer g self l'.
Proof.
  intros Ha Hl Hd Hd'. destruct Hl as [|b b' l l' Hb Hl]; [reflexivity|].
  rewrite !steer_closed by (try discriminate; assumption).
  now rewrite !(rule_same_place g self (b :: l) (b' :: l')) by
    (try assumption; constructor; assumption).
Qed.

Lemma snapshot_step_total (g : globals) (boidarr : list boid2D) (boid : boid2D) :
  exists h, snapshot_step g boidarr boid = Some (set_heading boid h).
Proof.
  unfold snapshot_step. rewrite findnear_filter. cbn [bind].
  apply adjustheading_total, findnear_sqrt_defined.
Qed.

Lemma snapshot_step_same_place (g : globals) (st st' : list boid2D) (boid : boid2D) :
  align g = 0 -> Forall2 same_place st st' ->
  snapshot_step g st boid = snapshot_step g st' boid.
Proof.
  intros Ha Hst. unfold snapshot_step. rewrite !findnear_filter. cbn [bind].
  unfold adjustheading.
  rewrite (steer_same_place g boid _ _ Ha (filter_same_place g boid st st' Hst)
             (findnear_sqrt_defined g boid st) (findnear_sqrt_defined g boid st')).
  reflexivity.
Qed.

Lemma snapshot_step_eq (g : globals) (boidarr : list boid2D) (boid : boid2D) :
  snapshot_step g boidarr boid = Some (snapshot g boidarr boid).
Proof.
  unfold snapshot. destruct (snapshot_step_total g boidarr boid) as [h ->].
  reflexivity.
Qed.

Lemma snapshot_same_place (g : globals) (boidarr : list boid2D) (boid : boid2D) :
  same_place boid (snapshot g boidarr boid).
Proof.
  unfold snapshot. destruct (snapshot_step_total g boidarr boid) as [h ->].
  split; reflexivity.
Qed.

Lemma snapshot_idnum (g : globals) (boidarr : list boid2D) (boid : boid2D) :
  idnum (snapshot g boidarr boid) = idnum boid.
Proof. symmetry. apply snapshot_same_place. Qed.

(** With a zero alignment weight, updating the headings in place gives
    what updating every boid against the array of the loop's start gives. *)
Lemma update_headings_snapshot (g : globals) :
  align g = 0 ->
  forall todo done done',
    Forall2 same_place done done' ->
    update_headings g done' todo =
    Some (done' ++ map (snapshot g (done ++ todo)) todo).
Proof.
  intros Ha. induction todo as [|boid rest IH]; intros done done' Hd.
  - cbn. now rewrite app_nil_r.
  - cbn [update_headings map].
    pose proof (snapshot_step_eq g (done ++ boid :: rest) boid) as Hs.
    rewrite (snapshot_step_same_place g (done ++ boid :: rest) (done' ++ boid :: rest))
      in Hs by first [exact Ha | apply Forall2_app; [exact Hd | apply same_place_refl]].
    unfold snapshot_step in Hs.
    destruct (findnear g boid (done' ++ boid :: rest)) as [near|]; [|discriminate].
    cbn [bind] in *. rewrite Hs. cbn [bind].
    rewrite (IH (done ++ [boid]) (done' ++ [snapshot g (done ++ boid :: rest) boid])).
    + rewrite <- !app_assoc. reflexivity.
    + apply Forall2_app; [exact Hd|]. constructor; [|constructor].
      apply snapshot_same_place.
Qed.

(** *** Permuting the array *)

Lemma Rsum_perm (l l' : list R) : Permutation l l' -> Rsum l = Rsum l'.
Proof.
  induction 1 as [| x l l' _ IH | x y l | l l' l'' _ IH1 _ IH2]; cbn [Rsum].
  - reflexivity.
  - now rewrite IH.
  - ring.
  - now rewrite IH1.
Qed.

Lemma filter_perm {A : Type} (f : A -> bool) (l l' : list A) :
  Permutation l l' -> Permutation (filter f l) (filter f l').
Proof.
  induction 1 as [| x l l' _ IH | x y l | l l' l'' _ IH1 _ IH2]; cbn [filter].
  - constructor.
  - destruct (f x); [constructor|]; exact IH.
  - destruct (f x), (f y); try reflexivity. constructor.
  - now transitivity (filter f l').
Qed.

Lemma rule_perm (g : globals) (self : boid2D) (l l' : list boid2D) (i : axis) :
  Permutation l l' -> rule g self l i = rule g self l' i.
Proof.
  intros Hl. unfold rule.
  rewrite (Rsum_perm _ _ (Permutation_map (crowd g self i) Hl)).
  rewrite (Rsum_perm _ _ (Permutation_map (fun b => vget (pos b) i) Hl)).
  rewrite (Rsum_perm _ _ (Permutation_map (fun b => vget (heading b) i) Hl)).
  now rewrite (Permutation_length Hl).
Qed.

Lemma steer_perm (g : globals) (self : boid2D) (l l' : list boid2D) :
  Permutation l l' ->
  Forall (sqrt_defined g self) l -> Forall (sqrt_defined g self) l' ->
  steer g self l = steer g self l'.
Proof.
  intros Hl Hd Hd'. destruct l as [|b l0].
  - apply Permutation_nil in Hl. now subst.
  - destruct l' as [|b' l0'].
    + symmetry in Hl. apply Permutation_nil in Hl. discriminate.
    + rewrite !steer_closed by (try discriminate; assumption).
      now rewrite !(rule_perm g self _ _ _ Hl).
Qed.

(** An iteration against an array does not depend on the array's order. *)
Lemma snapshot_perm (g : globals) (l l' : list boid2D) (boid : boid2D) :
  Permutation l l' -> snapshot g l boid = snapshot g l' boid.
Proof.
  intros Hl. unfold snapshot, snapshot_step. rewrite !findnear_filter. cbn [bind].
  unfold adjustheading.
  rewrite (steer_perm g boid _ _ (filter_perm (is_neighbour g boid) l l' Hl)
             (findnear_sqrt_defined g boid l) (findnear_sqrt_defined g boid l')).
  reflexivity.
Qed.

(** ** The position loop of [update] *)

Lemma move_with_idnum (g : globals) (bounds : R) (dr : R * R) (boid : boid2D) :
  idnum (move_with g bounds dr boid) = idnum boid.
Proof. apply movetick_idnum. Qed.

Lemma movetick_move_with (g : globals) (bounds : R) (rnd : nat -> R) (k : nat)
    (dr : R * R) (boid : boid2D) :
  rnd k = fst dr -> rnd (S k) = snd dr ->
  movetick g bounds (1 / 2) true rnd k boid =
  (move_with g bounds dr boid, S (S k)).
Proof.
  intros H0 H1. unfold move_with. rewrite !movetick_closed. cbn [fst].
  unfold moved_heading, noisy_heading, draw_index. now rewrite H0, H1.
Qed.

Lemma update_positions_draws (g : globals) (bounds : R) (rnd : nat -> R)
    (d : Z -> R * R) (l : list boid2D) :
  forall k,
    draws_for rnd k (map idnum l) d ->
    update_positions g bounds rnd k l =
    (map (fun a => move_with g bounds (d (idnum a)) a) l, (k + 2 * length l)%nat).
Proof.
  induction l as [|boid rest IH]; intros k Hd.
  - cbn. f_equal. lia.
  - cbn [update_positions map length].
    destruct (Hd 0%nat (idnum boid) eq_refl) as [H0 H1].
    rewrite Nat.mul_0_r, Nat.add_0_r in H0, H1.
    rewrite (movetick_move_with g bounds rnd k (d (idnum boid)) boid H0 H1).
    rewrite (IH (S (S k))).
    + f_equal. lia.
    + intros j id Hj. specialize (Hd (S j) id Hj).
      replace (k + 2 * S j)%nat with (S (S k) + 2 * j)%nat in Hd by lia.
      exact Hd.
Qed.

(** ** One tick *)

Lemma update_closed (g : globals) (bounds : R) (rnd : nat -> R) (k : nat)
    (d : Z -> R * R) (l : list boid2D) :
  align g = 0 ->
  draws_for rnd k (map idnum l) d ->
  update g bounds rnd k l =
  Some (map (fun a => move_with g bounds (d (idnum a)) (snapshot g l a)) l,
        (k + 2 * length l)%nat).
Proof.
  intros Ha Hd. unfold update.
  rewrite (update_headings_snapshot g Ha l [] [] (Forall2_nil _)).
  cbn [app bind].
  rewrite (update_positions_draws g bounds rnd d).
  - rewrite !map_map, length_map. f_equal. f_equal. apply map_ext.
    intros a. now rewrite snapshot_idnum.
  - rewrite map_map.
    erewrite map_ext; [exact Hd|]. intros a. apply snapshot_idnum.
Qed.

Lemma NoDup_map_injective {A B : Type} (f : A -> B) (l : list A) (x y : A) :
  NoDup (map f l) -> In x l -> In y l -> f x = f y -> x = y.
Proof.
  induction l as [|a l IH]; cbn [map]; intros Hn Hx Hy Hf; [contradiction|].
  inversion Hn as [|? ? Hnotin Hn']; subst.
  destruct Hx as [-> | Hx], Hy as [-> | Hy].
  - reflexivity.
  - exfalso. apply Hnotin. rewrite Hf. now apply in_map.
  - exfalso. apply Hnotin. rewrite <- Hf. now apply in_map.
  - now apply IH.
Qed.

(** C1, as the code has it.  The heading loop updates headings in place
    and the rule reads the neighbours' headings through the alignment
    term only.  With alignment weight 0, distinct ids and every boid
    receiving the same random draws in both runs, one tick on an array and
    on any permutation of it returns, and leaves every boid id with the
    same final position and heading. *)
Theorem update_order_independent_without_alignment
    (g : globals) (bounds : R) (rnd rnd' : nat -> R) (k k' : nat)
    (d : Z -> R * R) (l l' : list boid2D) :
  align g = 0 ->
  NoDup (map idnum l) ->
  Permutation l l' ->
  draws_for rnd k (map idnum l) d ->
  draws_for rnd' k' (map idnum l') d ->
  exists r r' n n',
    update g bounds rnd k l = Some (r, n) /\
    update g bounds rnd' k' l' = Some (r', n') /\
    Permutation r r' /\
    (forall a a', In a r -> In a' r' -> idnum a = idnum a' -> a = a').
Proof.
  intros Ha Hn Hp Hd Hd'.
  rewrite (update_closed g bounds rnd k d l Ha Hd).
  rewrite (update_closed g bounds rnd' k' d l' Ha Hd').
  set (F := fun a => move_with g bounds (d (idnum a)) (snapshot g l a)).
  assert (HF : map (fun a => move_with g bounds (d (idnum a)) (snapshot g l' a)) l'
               = map F l').
  { apply map_ext. intros a. unfold F.
    now rewrite (snapshot_perm g l l' a Hp). }
  rewrite HF.
  do 4 eexists. split; [reflexivity|]. split; [reflexivity|].
  split; [now apply Permutation_map|].
  intros a a' Hin Hin' Hid.
  apply in_map_iff in Hin. destruct Hin as [x [<- Hx]].
  apply in_map_iff in Hin'. destruct Hin' as [y [<- Hy]].
  assert (Hidf : forall z, idnum (F z) = idnum z).
  { intros z. unfold F. now rewrite move_with_idnum, snapshot_idnum. }
  rewrite !Hidf in Hid.
  apply (Permutation_in _ (Permutation_sym Hp)) in Hy.
  now rewrite (NoDup_map_injective idnum l x y Hn Hx Hy Hid).
Qed.

(** ** A tick that depends on the iteration order *)

Lemma adjustheading_closed (g : globals) (self : boid2D) (l : list boid2D) :
  l <> [] ->
  Forall (sqrt_defined g self) l ->
  adjustheading g self l =
  (h' <- normalize g (rule g self l ax0, rule g self l ax1) ;;
   Some (set_heading self h')).
Proof. intros Hne Hl. unfold adjustheading. now rewrite steer_closed. Qed.

Lemma is_neighbour_set_heading (g : globals) (self b : boid2D) (h : vec) :
  is_neighbour g self (set_heading b h) = is_neighbour g self b.
Proof. reflexivity. Qed.

Ltac solve_abs := unfold Rabs; repeat destruct Rcase_abs; lra.

Lemma a_b_neighbours :
  is_neighbour alignment_only boid_a boid_b = true /\
  is_neighbour alignment_only boid_b boid_a = true /\
  is_neighbour alignment_only boid_a boid_a = false /\
  is_neighbour alignment_only boid_b boid_b = false.
Proof.
  assert (Hab : distance boid_a boid_b = 1).
  { unfold distance. cbn [pos boid_a boid_b vget fst snd].
    replace ((1 - 0) ^ 2 + (0 - 0) ^ 2) with 1 by ring. apply sqrt_1. }
  assert (Hba : distance boid_b boid_a = 1).
  { unfold distance. cbn [pos boid_a boid_b vget fst snd].
    replace ((0 - 1) ^ 2 + (0 - 0) ^ 2) with 1 by ring. apply sqrt_1. }
  assert (Hlt : Rltb 1 2 = true) by (apply Rltb_true; lra).
  unfold is_neighbour. rewrite Hab, Hba.
  cbn [idnum boid_a boid_b senserange alignment_only]. rewrite Hlt.
  repeat split; reflexivity.
Qed.

Lemma a_b_sqrt_defined (h : vec) :
  sqrt_defined alignment_only boid_a (set_heading boid_b h) /\
  sqrt_defined alignment_only boid_b (set_heading boid_a h).
Proof.
  split; intros _ i; unfold radicand; destruct i; cbn; solve_abs.
Qed.

(** Against a neighbour flying the opposite way the rule cancels the
    heading, and the normalisation leaves the zero vector. *)
Lemma a_stops_facing_b :
  adjustheading alignment_only boid_a [boid_b] = Some (set_heading boid_a (0, 0)).
Proof.
  rewrite adjustheading_closed;
    [| discriminate | constructor; [apply (a_b_sqrt_defined (-1, 0)) | constructor]].
  assert (H0 : rule alignment_only boid_a [boid_b] ax0 = 0).
  { unfold rule. cbn [map Rsum length INR separate cohere align alignment_only
                      heading pos boid_a boid_b vget fst snd]. field. }
  assert (H1 : rule alignment_only boid_a [boid_b] ax1 = 0).
  { unfold rule. cbn [map Rsum length INR separate cohere align alignment_only
                      heading pos boid_a boid_b vget fst snd]. field. }
  rewrite H0, H1, normalize_zero; [reflexivity|].
  unfold magnitude. cbn [vget fst snd].
  replace (0 ^ 2 + 0 ^ 2) with 0 by ring. apply sqrt_0.
Qed.

Lemma b_stops_facing_a :
  adjustheading alignment_only boid_b [boid_a] = Some (set_heading boid_b (0, 0)).
Proof.
  rewrite adjustheading_closed;
    [| discriminate | constructor; [apply (a_b_sqrt_defined (1, 0)) | constructor]].
  assert (H0 : rule alignment_only boid_b [boid_a] ax0 = 0).
  { unfold rule. cbn [map Rsum length INR separate cohere align alignment_only
                      heading pos boid_a boid_b vget fst snd]. field. }
  assert (H1 : rule alignment_only boid_b [boid_a] ax1 = 0).
  { unfold rule. cbn [map Rsum length INR separate cohere align alignment_only
                      heading pos boid_a boid_b vget fst snd]. field. }
  rewrite H0, H1, normalize_zero; [reflexivity|].
  unfold magnitude. cbn [vget fst snd].
  replace (0 ^ 2 + 0 ^ 2) with 0 by ring. apply sqrt_0.
Qed.

(** Against a neighbour that has already stopped, a boid keeps its heading. *)
Lemma keeps_heading_facing_stopped (self other : boid2D) (x : R) :
  heading self = (x, 0) -> x ^ 2 = 1 ->
  sqrt_defined alignment_only self (set_heading other (0, 0)) ->
  exists h, adjustheading alignment_only self [set_heading other (0, 0)] =
            Some (set_heading self h) /\ vget h ax0 = x.
Proof.
  intros Hh Hx Hd.
  rewrite adjustheading_closed; [| discriminate | constructor; [exact Hd | constructor]].
  assert (H0 : rule alignment_only self [set_heading other (0, 0)] ax0 = x).
  { unfold rule. rewrite Hh.
    cbn [map Rsum length INR separate cohere align alignment_only
         heading set_heading vget fst snd]. field. }
  assert (H1 : rule alignment_only self [set_heading other (0, 0)] ax1 = 0).
  { unfold rule. rewrite Hh.
    cbn [map Rsum length INR separate cohere align alignment_only
         heading set_heading vget fst snd]. field. }
  rewrite H0, H1.
  assert (Hm : magnitude (x, 0) = 1).
  { unfold magnitude. cbn [vget fst snd].
    replace (x ^ 2 + 0 ^ 2) with 1 by (rewrite Hx; ring). apply sqrt_1. }
  rewrite normalize_nonzero by (rewrite Hm; lra). cbn [bind].
  eexists. split; [reflexivity|]. cbn [vget fst snd velocity alignment_only].
  rewrite Hm. field.
Qed.

(** The claim of C1 fails as stated: with alignment weight 1, the boid with
    id 0 ends the tick stopped when it is updated first, and still flying
    at full speed when it is updated second. *)
Lemma update_order_dependent :
  NoDup (map idnum [boid_a; boid_b]) /\
  Permutation [boid_a; boid_b] [boid_b; boid_a] /\
  exists a1 b1 a2 b2 n n',
    update alignment_only 100 (fun _ => 0) 0 [boid_a; boid_b] = Some ([a1; b1], n) /\
    update alignment_only 100 (fun _ => 0) 0 [boid_b; boid_a] = Some ([b2; a2], n') /\
    idnum a1 = 0%Z /\ idnum a2 = 0%Z /\
    vget (heading a1) ax0 = 0 /\ vget (heading a2) ax0 = 1 /\
    a1 <> a2.
Proof.
  destruct a_b_neighbours as [Hab [Hba [Haa Hbb]]].
  split.
  { cbn. repeat constructor; cbn; intuition discriminate. }
  split; [apply perm_swap|].
  destruct (keeps_heading_facing_stopped boid_b boid_a (-1) eq_refl ltac:(ring)
              (proj2 (a_b_sqrt_defined (0, 0)))) as [hb [Hb Hbx]].
  destruct (keeps_heading_facing_stopped boid_a boid_b 1 eq_refl ltac:(ring)
              (proj1 (a_b_sqrt_defined (0, 0)))) as [ha [Ha Hax]].
  assert (H1 : update_headings alignment_only [] [boid_a; boid_b] =
               Some [set_heading boid_a (0, 0); set_heading boid_b hb]).
  { cbn [update_headings app]. rewrite findnear_filter. cbn [filter].
    rewrite Haa, Hab. cbn [bind]. rewrite a_stops_facing_b. cbn [bind app].
    rewrite findnear_filter. cbn [filter].
    rewrite is_neighbour_set_heading, Hba, Hbb. cbn [bind]. rewrite Hb.
    reflexivity. }
  assert (H2 : update_headings alignment_only [] [boid_b; boid_a] =
               Some [set_heading boid_b (0, 0); set_heading boid_a ha]).
  { cbn [update_headings app]. rewrite findnear_filter. cbn [filter].
    rewrite Hbb, Hba. cbn [bind]. rewrite b_stops_facing_a. cbn [bind app].
    rewrite findnear_filter. cbn [filter].
    rewrite is_neighbour_set_heading, Hab, Haa. cbn [bind]. rewrite Ha.
    reflexivity. }
  unfold update. rewrite H1, H2. cbn [bind update_positions].
  rewrite !movetick_closed.
  do 6 eexists. split; [reflexivity|]. split; [reflexivity|].
  cbn [idnum heading set_heading boid_a vget fst snd].
  split; [reflexivity|]. split; [reflexivity|].
  assert (E1 : moved_heading alignment_only 100 true (fun _ => 0) 0
                 (set_heading boid_a (0, 0)) ax0 = 0).
  { unfold moved_heading, noisy_heading.
    cbn [bounce noise alignment_only andb heading set_heading vget fst snd]. lra. }
  assert (E2 : moved_heading alignment_only 100 true (fun _ => 0) 2
                 (set_heading boid_a ha) ax0 = 1).
  { unfold moved_heading, noisy_heading.
    cbn [bounce noise alignment_only andb heading set_heading]. rewrite Hax. lra. }
  split; [exact E1|]. split; [exact E2|].
  intros Heq.
  apply (f_equal (fun b => vget (heading b) ax0)) in Heq.
  cbn [heading vget fst] in Heq. rewrite E1, E2 in Heq. lra.
Qed.

(** ** Instances on concrete boids *)

Lemma b_near_a_sqrt_defined (b : boid2D) (i : axis) :
  In b [boid_b] -> 0 <= radicand defaultparams boid_a b i.
Proof.
  intros [<- | []]. unfold radicand. destruct i; cbn; solve_abs.
Qed.

(** The rule on [boid_a] with [boid_b] as its only neighbour, default globals. *)
Lemma adjustheading_rule_witness :
  steer defaultparams boid_a [boid_b] =
    Some (spec_heading defaultparams boid_a [boid_b] ax0,
          spec_heading defaultparams boid_a [boid_b] ax1) /\
  adjustheading defaultparams boid_a [boid_b] =
    (h' <- normalize defaultparams (spec_heading defaultparams boid_a [boid_b] ax0,
                                    spec_heading defaultparams boid_a [boid_b] ax1) ;;
     Some (set_heading boid_a h')).
Proof.
  apply (adjustheading_rule defaultparams boid_a [boid_b]).
  - reflexivity.
  - discriminate.
  - apply b_near_a_sqrt_defined.
Defined.

(** The speed clamp on [boid_a] steered by [boid_b], default globals. *)
Lemma adjustheading_speed_clamp_witness :
  exists self',
    adjustheading defaultparams boid_a [boid_b] = Some self' /\
    (magnitude (rule defaultparams boid_a [boid_b] ax0,
                rule defaultparams boid_a [boid_b] ax1) = 0 ->
     heading self' = (0, 0)) /\
    (magnitude (rule defaultparams boid_a [boid_b] ax0,
                rule defaultparams boid_a [boid_b] ax1) <> 0 ->
     magnitude (heading self') = velocity defaultparams).
Proof.
  apply (adjustheading_speed_clamp defaultparams boid_a [boid_b]).
  - apply steer_closed; [discriminate|].
    constructor; [|constructor]. intros _ i.
    apply b_near_a_sqrt_defined. now left.
  - cbn. lra.
Defined.

(** [boid_a] alone, default globals (velocity 5). *)
Lemma adjustheading_no_neighbours_witness :
  0 <= velocity defaultparams /\
  exists self' k,
    adjustheading defaultparams boid_a [] = Some self' /\
    0 <= k /\
    heading self' = (k * vget (heading boid_a) ax0, k * vget (heading boid_a) ax1) /\
    pos self' = pos boid_a /\ idnum self' = idnum boid_a /\
    (magnitude (heading boid_a) = velocity defaultparams ->
     heading self' = heading boid_a).
Proof.
  assert (Hv : 0 <= velocity defaultparams) by (cbn; lra).
  split; [exact Hv|].
  apply (adjustheading_no_neighbours defaultparams boid_a Hv).
Defined.

(** A boid crossing the right edge in bounce mode, with noise. *)
Lemma movetick_bounce_reflects_witness :
  bounce (updatebounce defaultparams) = true /\
  100 < raw_pos boid_leaving_right ax0 /\
  vget (pos (fst (movetick (updatebounce defaultparams) 100 (1 / 2) true
                           draws_in_order 0 boid_leaving_right))) ax0 =
    vget (pos boid_leaving_right) ax0 + vget (heading boid_leaving_right) ax0 /\
  vget (heading (fst (movetick (updatebounce defaultparams) 100 (1 / 2) true
                               draws_in_order 0 boid_leaving_right))) ax0 =
    - noisy_heading (updatebounce defaultparams) true draws_in_order 0
        boid_leaving_right ax0.
Proof.
  assert (Hr : 100 < raw_pos boid_leaving_right ax0) by (unfold raw_pos; cbn; lra).
  split; [reflexivity|]. split; [exact Hr|].
  destruct (movetick_bounce_reflects (updatebounce defaultparams) 100 (1 / 2) true
              draws_in_order 0 boid_leaving_right ax0 eq_refl (or_introl Hr))
    as [Hp [Hh _]].
  split; [exact Hp | exact Hh].
Defined.

Lemma draws_in_order_by_id :
  draws_for draws_in_order 0 (map idnum [boid_a; boid_b]) draws_by_id.
Proof.
  intros j id Hj. destruct j as [|[|j]]; cbn in Hj.
  - injection Hj as <-. split; reflexivity.
  - injection Hj as <-. split; reflexivity.
  - destruct j; discriminate.
Qed.

Lemma draws_swapped_by_id :
  draws_for draws_swapped 0 (map idnum [boid_b; boid_a]) draws_by_id.
Proof.
  intros j id Hj. destruct j as [|[|j]]; cbn in Hj.
  - injection Hj as <-. split; reflexivity.
  - injection Hj as <-. split; reflexivity.
  - destruct j; discriminate.
Qed.

(** One tick on [boid_a; boid_b] and on [boid_b; boid_a] with the default
    globals but alignment weight 0, each boid keeping its draws. *)
Lemma update_order_independent_witness :
  exists r r' n n',
    update (setalign 0 defaultparams) 100 draws_in_order 0 [boid_a; boid_b]
      = Some (r, n) /\
    update (setalign 0 defaultparams) 100 draws_swapped 0 [boid_b; boid_a]
      = Some (r', n') /\
    Permutation r r' /\
    (forall a a', In a r -> In a' r' -> idnum a = idnum a' -> a = a').
Proof.
  apply (update_order_independent_without_alignment
           (setalign 0 defaultparams) 100 draws_in_order draws_swapped 0 0
           draws_by_id [boid_a; boid_b] [boid_b; boid_a]).
  - reflexivity.
  - cbn. repeat constructor; cbn; intuition discriminate.
  - apply perm_swap.
  - apply draws_in_order_by_id.
  - apply draws_swapped_by_id.
Defined.

(** * Further properties of the code *)

(** ** findnear *)

Lemma distance_sym (a b : boid2D) : distance a b = distance b a.
Proof. unfold distance. f_equal. ring. Qed.

Lemma distance_nonneg (a b : boid2D) : 0 <= distance a b.
Proof. apply sqrt_pos. Qed.

(** X1.  Sensing is mutual: for two boids of the array, [findnear] returns
    the second to the first exactly when it returns the first to the
    second. *)
Theorem findnear_symmetric (g : globals) (a b : boid2D) (boidarr : list boid2D) :
  In a boidarr -> In b boidarr ->
  exists na nb,
    findnear g a boidarr = Some na /\
    findnear g b boidarr = Some nb /\
    (In b na <-> In a nb).
Proof.
  intros Ha Hb. do 2 eexists.
  split; [apply findnear_filter|]. split; [apply findnear_filter|].
  rewrite !filter_In, !is_neighbour_spec, (distance_sym b a).
  split; intros [_ [Hid Hd]]; (split; [assumption|]); split; congruence.
Qed.

Lemma filter_none {A : Type} (f : A -> bool) (l : list A) :
  (forall x, f x = false) -> filter f l = [].
Proof.
  intros Hf. induction l as [|x l IH]; cbn [filter]; [reflexivity|].
  now rewrite Hf.
Qed.

(** X2.  With a sensing range of zero or below nobody is sensed: [findnear]
    returns the empty list for every boid and array. *)
Theorem findnear_nonpositive_range (g : globals) (self : boid2D)
    (boidarr : list boid2D) :
  senserange g <= 0 -> findnear g self boidarr = Some [].
Proof.
  intros Hr. rewrite findnear_filter, filter_none; [reflexivity|].
  intros b. unfold is_neighbour.
  replace (Rltb (distance self b) (senserange g)) with false;
    [apply andb_false_r|].
  symmetry. apply Rltb_false. pose proof (distance_nonneg self b). lra.
Qed.

(** ** adjustheading *)

Lemma for_each_raises {A S : Type} (body : A -> S -> option S) (x : A) (l : list A) :
  (forall s, body x s = None) -> In x l -> forall s, for_each body l s = None.
Proof.
  intros Hx. induction l as [|y l IH]; intros Hin s; [contradiction|].
  cbn [for_each]. destruct Hin as [-> | Hin].
  - now rewrite Hx.
  - destruct (body y s) as [s'|]; cbn [bind]; [now apply IH | reflexivity].
Qed.

Lemma math_sqrt_negative (x : R) : x < 0 -> math_sqrt x = None.
Proof. intros Hx. unfold math_sqrt. destruct (Rlt_dec x 0); [reflexivity | lra]. Qed.

Lemma accumulate_raises (g : globals) (self b : boid2D) (i : axis) (s : sums) :
  root_sep g = true -> radicand g self b i < 0 -> accumulate g self b i s = None.
Proof.
  intros Hm Hr. unfold accumulate, radicand in *. rewrite Hm.
  rewrite (Rabs_swap (vget (pos self) i) (vget (pos b) i)).
  rewrite (math_sqrt_negative _ Hr).
  destruct (Rltb (vget (pos b) i) (vget (pos self) i)); reflexivity.
Qed.

(** X3.  In root mode [adjustheading] raises as soon as the list holds a
    boid that is farther than [senserange] away on one axis: the argument
    of [math.sqrt] is negative there. *)
Theorem adjustheading_raises_beyond_range (g : globals) (self b : boid2D)
    (guideboids : list boid2D) (i : axis) :
  root_sep g = true ->
  In b guideboids ->
  senserange g < Rabs (vget (pos b) i - vget (pos self) i) ->
  adjustheading g self guideboids = None.
Proof.
  intros Hm Hin Hfar. unfold adjustheading, steer.
  destruct guideboids as [|b0 l0]; [contradiction|]. cbn [length Nat.eqb].
  rewrite (for_each_raises (fun boid => for_axes (accumulate g self boid)) b);
    [reflexivity | | exact Hin].
  intros s. unfold for_axes.
  assert (Hr : radicand g self b i < 0) by (unfold radicand; lra).
  destruct i.
  - now rewrite (accumulate_raises g self b ax0 s Hm Hr).
  - destruct (accumulate g self b ax0 s) as [s'|]; cbn [bind]; [|reflexivity].
    apply (accumulate_raises g self b ax1 s' Hm Hr).
Qed.

Lemma Rsum_nonpos (l : list R) : Forall (fun x => x <= 0) l -> Rsum l <= 0.
Proof. induction 1 as [|x l Hx _ IH]; cbn [Rsum]; lra. Qed.

Lemma square_mode_sqrt_defined (g : globals) (self : boid2D) (l : list boid2D) :
  root_sep g = false -> Forall (sqrt_defined g self) l.
Proof. intros Hm. apply Forall_forall. intros b _ Ht. congruence. Qed.

Lemma rule_square_heading (g : globals) (self : boid2D) (l : list boid2D) (i : axis) :
  root_sep g = false -> rule g self l i = square_heading g self l i.
Proof.
  intros Hm. unfold rule, square_heading, anti_crowd_square, mean_position,
    mean_heading.
  replace (map (crowd g self i) l) with
    (map (fun b =>
            - (senserange g - Rabs (vget (pos self) i - vget (pos b) i)) ^ 2) l);
    [reflexivity|].
  apply map_ext. intros b. unfold crowd, radicand. rewrite Hm.
  now rewrite (Rabs_swap (vget (pos self) i)).
Qed.

(** X4.  In square mode, whenever the rules return a heading for a
    non-empty list, it is heading - separate * anti_crowd
    + cohere * (mean_position - position) + align * mean_heading with
    anti_crowd the mean of -(senserange - |delta|)^2, which is never
    positive on either axis. *)
Theorem adjustheading_square_mode (g : globals) (self : boid2D)
    (guideboids : list boid2D) (h : vec) :
  root_sep g = false ->
  guideboids <> [] ->
  steer g self guideboids = Some h ->
  h = (square_heading g self guideboids ax0,
       square_heading g self guideboids ax1) /\
  forall i, anti_crowd_square g self guideboids i <= 0.
Proof.
  intros Hm Hne Hs. split.
  - rewrite steer_closed in Hs;
      [| exact Hne | now apply square_mode_sqrt_defined].
    rewrite !rule_square_heading in Hs by exact Hm. congruence.
  - intros i. unfold anti_crowd_square.
    assert (Hn : 0 < INR (length guideboids)).
    { apply lt_0_INR. destruct guideboids; [congruence | cbn; lia]. }
    assert (Hsum : Rsum (map (fun b =>
                   - (senserange g - Rabs (vget (pos self) i - vget (pos b) i)) ^ 2)
                   guideboids) <= 0).
    { apply Rsum_nonpos, Forall_forall. intros x Hx.
      apply in_map_iff in Hx. destruct Hx as [b [<- _]].
      pose proof (pow2_ge_0
                    (senserange g - Rabs (vget (pos self) i - vget (pos b) i))).
      lra. }
    unfold Rdiv. pose proof (Rinv_0_lt_compat _ Hn). nra.
Qed.

Lemma magnitude_nonneg (h : vec) : 0 <= magnitude h.
Proof. apply sqrt_pos. Qed.

Lemma magnitude_zero_vec : magnitude (0, 0) = 0.
Proof.
  unfold magnitude. cbn [vget fst snd].
  replace (0 ^ 2 + 0 ^ 2) with 0 by ring. apply sqrt_0.
Qed.

(** What the normalisation returns has magnitude zero or [|velocity|]. *)
Lemma normalize_clamped (g : globals) (h h' : vec) :
  normalize g h = Some h' -> h' = (0, 0) \/ magnitude h' = Rabs (velocity g).
Proof.
  destruct (Req_dec_T (magnitude h) 0) as [Hz | Hnz].
  - rewrite (normalize_zero g h Hz). intros [= <-]. now left.
  - rewrite (normalize_nonzero g h Hnz). intros [= <-]. right.
    now apply rescaled_magnitude.
Qed.

Lemma adjustheading_clamped (g : globals) (self self' : boid2D) (l : list boid2D) :
  adjustheading g self l = Some self' -> clamped g self'.
Proof.
  unfold adjustheading. destruct (steer g self l) as [h|]; [|discriminate].
  cbn [bind]. destruct (normalize g h) as [h'|] eqn:Hn; [|discriminate].
  cbn [bind]. intros [= <-]. apply (normalize_clamped g h h' Hn).
Qed.

(** X5.  Without neighbours and with a velocity that is not negative,
    adjusting the heading a second time changes nothing more. *)
Theorem adjustheading_no_neighbours_idempotent (g : globals) (self : boid2D) :
  0 <= velocity g ->
  exists self',
    adjustheading g self [] = Some self' /\
    adjustheading g self' [] = Some self'.
Proof.
  intros Hv.
  assert (Hfix : forall s h, heading s = h ->
            (h = (0, 0) \/ (magnitude h = velocity g /\ velocity g <> 0)) ->
            adjustheading g s [] = Some s).
  { intros s h Hh Hc. unfold adjustheading. rewrite steer_empty. cbn [bind].
    rewrite Hh. destruct s as [p id hs]. cbn [heading] in Hh. subst hs.
    destruct Hc as [-> | [Hm Hnz]].
    - now rewrite (normalize_zero g _ magnitude_zero_vec).
    - rewrite normalize_nonzero by (rewrite Hm; exact Hnz). cbn [bind].
      unfold set_heading. cbn [pos idnum]. do 2 f_equal.
      rewrite Hm. destruct h as [hx hy]. cbn [vget fst snd].
      f_equal; field; exact Hnz. }
  unfold adjustheading at 1. rewrite steer_empty. cbn [bind].
  destruct (Req_dec_T (magnitude (heading self)) 0) as [Hz | Hnz].
  - rewrite (normalize_zero g _ Hz). cbn [bind]. eexists. split; [reflexivity|].
    apply (Hfix _ (0, 0)); [reflexivity | now left].
  - rewrite (normalize_nonzero g _ Hnz). cbn [bind]. eexists.
    split; [reflexivity|].
    destruct (Req_dec_T (velocity g) 0) as [Hv0 | Hv0].
    + apply (Hfix _ (0, 0)); [|now left]. cbn [heading set_heading].
      rewrite Hv0. f_equal; field; exact Hnz.
    + eapply Hfix; [reflexivity|]. right. split; [|exact Hv0].
      cbn [heading set_heading]. rewrite (rescaled_magnitude _ _ Hnz).
      now apply Rabs_pos_eq.
Qed.

(** X6.  A negative velocity turns a boid round: without neighbours, a
    non-zero heading becomes a negative multiple of itself, of magnitude
    [- velocity]. *)
Theorem adjustheading_negative_velocity_reverses (g : globals) (self : boid2D) :
  velocity g < 0 ->
  magnitude (heading self) <> 0 ->
  exists self' k,
    adjustheading g self [] = Some self' /\
    k < 0 /\
    heading self' = (k * vget (heading self) ax0, k * vget (heading self) ax1) /\
    magnitude (heading self') = - velocity g.
Proof.
  intros Hv Hnz. unfold adjustheading. rewrite steer_empty. cbn [bind].
  rewrite (normalize_nonzero g _ Hnz). cbn [bind].
  assert (Hpos : 0 < magnitude (heading self)).
  { pose proof (magnitude_nonneg (heading self)). lra. }
  eexists. exists (velocity g / magnitude (heading self)).
  split; [reflexivity|]. split.
  { unfold Rdiv. pose proof (Rinv_0_lt_compat _ Hpos). nra. }
  cbn [heading set_heading]. split; [f_equal; field; exact Hnz|].
  rewrite (rescaled_magnitude _ _ Hnz). apply Rabs_left, Hv.
Qed.

(** ** movetick *)

(** X7.  Wrap mode keeps a boid in the square whenever position plus
    heading lies in [0, 2 * bound] on the axis: the position is then at or
    above 0 and at or below [bound] after the move. *)
Theorem movetick_wrap_contains (g : globals) (bound multiplier : R)
    (addnoise : bool) (rnd : nat -> R) (k : nat) (self : boid2D) (i : axis) :
  bounce g = false ->
  0 <= raw_pos self i <= 2 * bound ->
  0 <= vget (pos (fst (movetick g bound multiplier addnoise rnd k self))) i <= bound.
Proof.
  intros Hb Hp. rewrite movetick_pos. unfold moved_pos, Rgtb. rewrite Hb.
  destruct (Rltb bound (raw_pos self i)) eqn:Hhi.
  - apply Rltb_true in Hhi. lra.
  - apply Rltb_false in Hhi.
    destruct (Rltb (raw_pos self i) 0) eqn:Hlo.
    + apply Rltb_true in Hlo. lra.
    + lra.
Qed.

(** X8.  Wrap mode does not bring back a boid that leaves through 0: when
    position plus heading is negative on an axis, the position after the
    move is [bound] minus that sum, beyond [bound]. *)
Theorem movetick_wrap_below_zero (g : globals) (bound multiplier : R)
    (addnoise : bool) (rnd : nat -> R) (k : nat) (self : boid2D) (i : axis) :
  bounce g = false ->
  0 <= bound ->
  raw_pos self i < 0 ->
  vget (pos (fst (movetick g bound multiplier addnoise rnd k self))) i =
    bound - raw_pos self i /\
  bound < vget (pos (fst (movetick g bound multiplier addnoise rnd k self))) i.
Proof.
  intros Hb Hbd Hp. rewrite movetick_pos. unfold moved_pos, Rgtb. rewrite Hb.
  replace (Rltb bound (raw_pos self i)) with false
    by (symmetry; apply Rltb_false; lra).
  replace (Rltb (raw_pos self i) 0) with true by (symmetry; now apply Rltb_true).
  lra.
Qed.

(** X9.  Noise moves a heading component by at most [noise / 2]: with
    draws in [0, 1) and a noise amount that is not negative, the component
    after [movetick] is at most [noise / 2] larger in absolute value, and
    in wrap mode at most [noise / 2] away from the component before. *)
Theorem movetick_noise_bounded (g : globals) (bound multiplier : R)
    (addnoise : bool) (rnd : nat -> R) (k : nat) (self : boid2D) (i : axis) :
  unit_draws rnd ->
  0 <= noise g ->
  let self' := fst (movetick g bound multiplier addnoise rnd k self) in
  Rabs (vget (heading self') i) <= Rabs (vget (heading self) i) + noise g / 2 /\
  (bounce g = false ->
   Rabs (vget (heading self') i - vget (heading self) i) <= noise g / 2).
Proof.
  intros Hu Hn self'. subst self'. rewrite movetick_heading.
  pose proof (Hu (draw_index k i)) as Hd.
  assert (Hnz : Rabs (noisy_heading g addnoise rnd k self i - vget (heading self) i)
                <= noise g / 2).
  { unfold noisy_heading. destruct addnoise.
    - apply Rabs_le. split; nra.
    - replace (vget (heading self) i - vget (heading self) i) with 0 by ring.
      rewrite Rabs_R0. lra. }
  split.
  - unfold moved_heading.
    destruct (bounce g && _); [rewrite Rabs_Ropp|];
      revert Hnz; unfold Rabs; repeat destruct Rcase_abs; lra.
  - intros Hb. unfold moved_heading. rewrite Hb. exact Hnz.
Qed.

(** X10.  In bounce mode without noise a boid that steps out of the square
    on an axis is back where it started after the next step, flying the
    other way on that axis. *)
Theorem movetick_bounce_returns (g : globals) (bound m1 m2 : R)
    (rnd : nat -> R) (k1 k2 : nat) (self : boid2D) (i : axis) :
  bounce g = true ->
  0 <= vget (pos self) i <= bound ->
  bound < raw_pos self i \/ raw_pos self i < 0 ->
  let self1 := fst (movetick g bound m1 false rnd k1 self) in
  let self2 := fst (movetick g bound m2 false rnd k2 self1) in
  vget (pos self2) i = vget (pos self) i /\
  vget (heading self2) i = - vget (heading self) i.
Proof.
  intros Hb Hin Hout self1 self2.
  assert (Hp1 : vget (pos self1) i = raw_pos self i).
  { subst self1. rewrite movetick_pos. unfold moved_pos. now rewrite Hb. }
  assert (Hh1 : vget (heading self1) i = - vget (heading self) i).
  { subst self1. rewrite movetick_heading. unfold moved_heading, noisy_heading.
    rewrite Hb. cbn [andb].
    replace (Rgtb (raw_pos self i) bound || Rltb (raw_pos self i) 0) with true;
      [reflexivity|].
    symmetry. apply orb_true_iff. unfold Rgtb. rewrite !Rltb_true. exact Hout. }
  assert (Hr1 : raw_pos self1 i = vget (pos self) i).
  { unfold raw_pos at 1. rewrite Hp1, Hh1. unfold raw_pos. ring. }
  subst self2. rewrite movetick_pos, movetick_heading.
  unfold moved_pos, moved_heading, noisy_heading, Rgtb. rewrite Hb, Hr1.
  replace (Rltb bound (vget (pos self) i)) with false
    by (symmetry; apply Rltb_false; lra).
  replace (Rltb (vget (pos self) i) 0) with false
    by (symmetry; apply Rltb_false; lra).
  cbn [andb orb]. split; [reflexivity | exact Hh1].
Qed.

(** ** The loops of [update], for any alignment weight *)

Lemma update_headings_shape (g : globals) :
  forall todo done,
  exists r,
    update_headings g done todo = Some (done ++ r) /\
    Forall2 same_place todo r /\
    Forall (clamped g) r.
Proof.
  induction todo as [|boid rest IH]; intros done.
  - exists []. cbn. rewrite app_nil_r. repeat split; constructor.
  - cbn [update_headings]. rewrite findnear_filter. cbn [bind].
    destruct (adjustheading_total g boid _
                (findnear_sqrt_defined g boid (done ++ boid :: rest))) as [h Hh].
    rewrite Hh. cbn [bind].
    destruct (IH (done ++ [set_heading boid h])) as [r [Hr [Hp Hc]]].
    exists (set_heading boid h :: r). rewrite Hr, <- app_assoc.
    split; [reflexivity|]. split.
    + constructor; [split; reflexivity | exact Hp].
    + constructor; [exact (adjustheading_clamped g _ _ _ Hh) | exact Hc].
Qed.

Lemma same_place_idnums (l r : list boid2D) :
  Forall2 same_place l r -> map idnum r = map idnum l.
Proof.
  induction 1 as [|a b l r [_ Hid] _ IH]; cbn [map]; [reflexivity|].
  now rewrite Hid, IH.
Qed.

Lemma update_positions_shape (g : globals) (bounds : R) (rnd : nat -> R) :
  forall l k,
  exists r,
    update_positions g bounds rnd k l = (r, (k + 2 * length l)%nat) /\
    map idnum r = map idnum l.
Proof.
  induction l as [|boid rest IH]; intros k.
  - exists []. cbn. split; [f_equal; lia | reflexivity].
  - cbn [update_positions]. rewrite movetick_closed.
    destruct (IH (S (S k))) as [r [Hr Hid]]. rewrite Hr.
    eexists. split; [f_equal; cbn [length]; lia|].
    cbn [map idnum]. now rewrite Hid.
Qed.

(** X11.  Whenever the heading loop of [update] returns, it has left every
    boid at its position with its id, and every boid either stopped or at
    speed [|velocity|]. *)
Theorem update_headings_keeps_places (g : globals) (boidarr r : list boid2D) :
  update_headings g [] boidarr = Some r ->
  Forall2 same_place boidarr r /\ Forall (clamped g) r.
Proof.
  intros Hr. destruct (update_headings_shape g boidarr []) as [r' [Hr' H]].
  cbn [app] in Hr'. rewrite Hr' in Hr. injection Hr as <-. exact H.
Qed.

Lemma update_shape (g : globals) (bounds : R) (rnd : nat -> R) (k : nat)
    (boidarr : list boid2D) :
  exists r,
    update g bounds rnd k boidarr = Some (r, (k + 2 * length boidarr)%nat) /\
    map idnum r = map idnum boidarr /\
    length r = length boidarr.
Proof.
  unfold update.
  destruct (update_headings_shape g boidarr []) as [l1 [H1 [Hp _]]].
  cbn [app] in H1. rewrite H1. cbn [bind].
  destruct (update_positions_shape g bounds rnd l1 k) as [r [Hr Hid]].
  pose proof (same_place_idnums _ _ Hp) as Hid1.
  assert (Hlen : length l1 = length boidarr).
  { rewrite <- (length_map idnum l1), Hid1. apply length_map. }
  exists r. rewrite Hr, Hlen. split; [reflexivity|].
  split; [congruence|].
  rewrite <- (length_map idnum r), Hid, Hid1. apply length_map.
Qed.

(** X12.  Whenever one tick returns, [update] hands back as many boids as
    it was given, with the same ids in the same order, and has made
    exactly two random draws per boid. *)
Theorem update_keeps_population (g : globals) (bounds : R) (rnd : nat -> R)
    (k n : nat) (boidarr r : list boid2D) :
  update g bounds rnd k boidarr = Some (r, n) ->
  n = (k + 2 * length boidarr)%nat /\
  map idnum r = map idnum boidarr /\
  length r = length boidarr.
Proof.
  intros Hu. destruct (update_shape g bounds rnd k boidarr) as [r' [Hr' H]].
  rewrite Hr' in Hu. injection Hu as <- <-. split; [reflexivity | exact H].
Qed.

(** ** Construction *)

Lemma polar_magnitude (phi v : R) : magnitude (cos phi * v, sin phi * v) = Rabs v.
Proof.
  unfold magnitude. cbn [vget fst snd].
  replace ((cos phi * v) ^ 2 + (sin phi * v) ^ 2) with (v ^ 2).
  - apply sqrt_sq_abs.
  - pose proof (sin2_cos2 phi) as H. unfold Rsqr in H.
    replace ((cos phi * v) ^ 2 + (sin phi * v) ^ 2)
      with ((sin phi * sin phi + cos phi * cos phi) * v ^ 2) by ring.
    rewrite H. ring.
Qed.

(** X13.  A new boid flies at speed [|velocity_|], whatever angle is
    drawn; constructing it sets the velocity global to [velocity_], so the
    boid meets the speed clamp of the globals it leaves behind, and resets
    [noise] to 1, [bounce] to False and [root_sep] to True. *)
Theorem boid2D_init_speed (p : vec) (id : Z)
    (senserange_ separate_ align_ cohere_ velocity_ : R)
    (rnd : nat -> R) (k : nat) (g : globals) :
  let r := boid2D_init p id senserange_ separate_ align_ cohere_ velocity_
                       rnd k g in
  magnitude (heading (fst (fst r))) = Rabs velocity_ /\
  magnitude (heading (fst (fst r))) = Rabs (velocity (snd (fst r))) /\
  noise (snd (fst r)) = 1 /\
  bounce (snd (fst r)) = false /\
  root_sep (snd (fst r)) = true.
Proof.
  cbn. rewrite polar_magnitude. repeat split; reflexivity.
Qed.

(** The boids that the comprehension builds from index [s] on. *)
Lemma make_boids_shape (bounds : R) (rnd : nat -> R) :
  forall n s k g,
    let r := make_boids bounds rnd n (Z.of_nat s) k g in
    map idnum (fst (fst r)) = map Z.of_nat (seq s n) /\
    snd r = (k + 3 * n)%nat /\
    Forall (fun b => magnitude (heading b) = 5) (fst (fst r)) /\
    (n <> O ->
     snd (fst r) = mkGlobals 50 (45 / 10) 2 (7 / 10) 5 1 false true (showsight g)) /\
    (n = O -> snd (fst r) = g) /\
    (unit_draws rnd -> 0 < bounds ->
     Forall (fun b => forall i, 0 <= vget (pos b) i < bounds) (fst (fst r))).
Proof.
  induction n as [|n IH]; intros s k g.
  - cbn. repeat split; try constructor; try congruence. lia.
  - cbn [make_boids boid2D_init].
    specialize (IH (S s) (S (S (S k)))
                  (mkGlobals (senserange defaultparams) (separate defaultparams)
                     (align defaultparams) (cohere defaultparams)
                     (velocity defaultparams) 1 false true (showsight g))).
    replace (Z.of_nat s + 1)%Z with (Z.of_nat (S s)) by lia.
    destruct (make_boids bounds rnd n (Z.of_nat (S s)) (S (S (S k))) _)
      as [[rest g''] k''].
    cbn [fst snd] in *. destruct IH as [Hid [Hk [Hsp [Hg [Hg0 Hpos]]]]].
    split; [cbn [map seq idnum]; now rewrite Hid|].
    split; [lia|]. split.
    { constructor; [|exact Hsp]. cbn [heading velocity defaultparams].
      rewrite polar_magnitude. apply Rabs_pos_eq. lra. }
    split.
    { intros _. destruct n as [|n'].
      - now rewrite Hg0.
      - now rewrite Hg. }
    split; [discriminate|].
    intros Hu Hb. constructor; [|now apply Hpos].
    intros i. pose proof (Hu k). pose proof (Hu (S k)).
    destruct i; cbn [pos vget fst snd]; nra.
Qed.

(** X14.  [boidrender.__init__] builds [boids] boids (none when [boids] is
    negative) with the ids 0, 1, ... in order, hence distinct, each flying
    at speed 5, and makes three random draws per boid. *)
Theorem boidrender_init_population (bounds : R) (boids : Z) (rnd : nat -> R)
    (k : nat) (g : globals) :
  let r := boidrender_init bounds boids rnd k g in
  length (fst (fst r)) = Z.to_nat boids /\
  map idnum (fst (fst r)) = map Z.of_nat (seq 0 (Z.to_nat boids)) /\
  NoDup (map idnum (fst (fst r))) /\
  Forall (fun b => magnitude (heading b) = 5) (fst (fst r)) /\
  snd r = (k + 3 * Z.to_nat boids)%nat.
Proof.
  unfold boidrender_init.
  pose proof (make_boids_shape bounds rnd (Z.to_nat boids) 0 k g) as H.
  cbn [Z.of_nat] in H.
  destruct (make_boids bounds rnd (Z.to_nat boids) 0%Z k g) as [[arr g'] k'].
  cbn [fst snd] in *. destruct H as [Hid [Hk [Hsp _]]].
  split.
  { rewrite <- (length_map idnum arr), Hid, length_map. apply length_seq. }
  split; [exact Hid|]. split; [|split; assumption].
  rewrite Hid. apply Finite.Injective_map_NoDup; [|apply seq_NoDup].
  intros x y. apply Nat2Z.inj.
Qed.

(** X15.  Constructing the renderer with at least one boid leaves the
    globals at the defaults, whatever they were before: sensing range 50,
    separation 4.5, alignment 2, cohesion 0.7, velocity 5, noise 1, wrap
    mode, root mode, sensing circles hidden. *)
Theorem boidrender_init_resets_globals (bounds : R) (boids : Z) (rnd : nat -> R)
    (k : nat) (g : globals) :
  (0 < boids)%Z ->
  snd (fst (boidrender_init bounds boids rnd k g)) = defaultparams.
Proof.
  intros Hn. unfold boidrender_init.
  pose proof (make_boids_shape bounds rnd (Z.to_nat boids) 0 k g) as H.
  cbn [Z.of_nat] in H.
  destruct (make_boids bounds rnd (Z.to_nat boids) 0%Z k g) as [[arr g'] k'].
  cbn [fst snd] in *. destruct H as [_ [_ [_ [Hg _]]]].
  rewrite Hg by lia. reflexivity.
Qed.

(** X16.  With draws in [0, 1) and a positive side, every boid is created
    inside the square: both coordinates at or above 0 and below [bounds]. *)
Theorem boidrender_init_inside (bounds : R) (boids : Z) (rnd : nat -> R)
    (k : nat) (g : globals) :
  unit_draws rnd ->
  0 < bounds ->
  Forall (fun b => forall i, 0 <= vget (pos b) i < bounds)
         (fst (fst (boidrender_init bounds boids rnd k g))).
Proof.
  intros Hu Hb. unfold boidrender_init.
  pose proof (make_boids_shape bounds rnd (Z.to_nat boids) 0 k g) as H.
  cbn [Z.of_nat] in H.
  destruct (make_boids bounds rnd (Z.to_nat boids) 0%Z k g) as [[arr g'] k'].
  cbn [fst snd] in *. now apply H.
Qed.

(** ** Instances of the further properties *)

Lemma draws_in_order_unit : unit_draws draws_in_order.
Proof. intros n. destruct n as [|[|n]]; cbn; lra. Qed.

Lemma boid_a_flies : magnitude (heading boid_a) <> 0.
Proof.
  unfold magnitude. cbn [heading boid_a vget fst snd].
  replace (1 ^ 2 + 0 ^ 2) with 1 by ring. rewrite sqrt_1. lra.
Qed.

(** [boid_a] and [boid_b] in an array of two. *)
Lemma findnear_symmetric_witness :
  exists na nb,
    findnear defaultparams boid_a [boid_a; boid_b] = Some na /\
    findnear defaultparams boid_b [boid_a; boid_b] = Some nb /\
    (In boid_b na <-> In boid_a nb).
Proof.
  apply (findnear_symmetric defaultparams boid_a boid_b [boid_a; boid_b]).
  - now left.
  - right. now left.
Defined.

(** The sensing-range slider at 0. *)
Lemma findnear_nonpositive_range_witness :
  senserange (setrange 0 defaultparams) <= 0 /\
  findnear (setrange 0 defaultparams) boid_a [boid_a; boid_b] = Some [].
Proof.
  assert (H : senserange (setrange 0 defaultparams) <= 0) by (cbn; lra).
  split; [exact H|].
  apply (findnear_nonpositive_range (setrange 0 defaultparams) boid_a
           [boid_a; boid_b] H).
Defined.

(** A guide list that holds a boid 100 units away, sensing range 50. *)
Lemma adjustheading_raises_beyond_range_witness :
  adjustheading defaultparams boid_a [boid_b; boid_leaving_right] = None.
Proof.
  apply (adjustheading_raises_beyond_range defaultparams boid_a boid_leaving_right
           [boid_b; boid_leaving_right] ax0).
  - reflexivity.
  - right. now left.
  - cbn. solve_abs.
Defined.

(** [boid_a] steered by [boid_b] in square mode. *)
Lemma adjustheading_square_mode_witness :
  steer square_mode_globals boid_a [boid_b] =
    Some (rule square_mode_globals boid_a [boid_b] ax0,
          rule square_mode_globals boid_a [boid_b] ax1) /\
  (rule square_mode_globals boid_a [boid_b] ax0,
   rule square_mode_globals boid_a [boid_b] ax1) =
    (square_heading square_mode_globals boid_a [boid_b] ax0,
     square_heading square_mode_globals boid_a [boid_b] ax1) /\
  forall i, anti_crowd_square square_mode_globals boid_a [boid_b] i <= 0.
Proof.
  assert (Hs : steer square_mode_globals boid_a [boid_b] =
               Some (rule square_mode_globals boid_a [boid_b] ax0,
                     rule square_mode_globals boid_a [boid_b] ax1)).
  { apply steer_closed; [discriminate|].
    now apply square_mode_sqrt_defined. }
  split; [exact Hs|].
  apply (adjustheading_square_mode square_mode_globals boid_a [boid_b] _
           eq_refl ltac:(discriminate) Hs).
Defined.

Lemma adjustheading_no_neighbours_idempotent_witness :
  exists self',
    adjustheading defaultparams boid_a [] = Some self' /\
    adjustheading defaultparams self' [] = Some self'.
Proof.
  apply (adjustheading_no_neighbours_idempotent defaultparams boid_a).
  cbn. lra.
Defined.

(** The velocity global at -1. *)
Lemma adjustheading_negative_velocity_reverses_witness :
  exists self' k,
    adjustheading (setvelocity (-1) defaultparams) boid_a [] = Some self' /\
    k < 0 /\
    heading self' = (k * vget (heading boid_a) ax0, k * vget (heading boid_a) ax1) /\
    magnitude (heading self') = - velocity (setvelocity (-1) defaultparams).
Proof.
  apply (adjustheading_negative_velocity_reverses
           (setvelocity (-1) defaultparams) boid_a).
  - cbn. lra.
  - exact boid_a_flies.
Defined.

(** A boid crossing the right edge in wrap mode. *)
Lemma movetick_wrap_contains_witness :
  0 <= vget (pos (fst (movetick defaultparams 100 (1 / 2) true draws_in_order 0
                                boid_leaving_right))) ax0 <= 100.
Proof.
  apply (movetick_wrap_contains defaultparams 100 (1 / 2) true draws_in_order 0
           boid_leaving_right ax0).
  - reflexivity.
  - unfold raw_pos. cbn. lra.
Defined.

(** A boid crossing the left edge in wrap mode. *)
Lemma movetick_wrap_below_zero_witness :
  vget (pos (fst (movetick defaultparams 100 (1 / 2) true draws_in_order 0
                           boid_leaving_left))) ax0 =
    100 - raw_pos boid_leaving_left ax0 /\
  100 < vget (pos (fst (movetick defaultparams 100 (1 / 2) true draws_in_order 0
                                 boid_leaving_left))) ax0.
Proof.
  apply (movetick_wrap_below_zero defaultparams 100 (1 / 2) true draws_in_order 0
           boid_leaving_left ax0).
  - reflexivity.
  - lra.
  - unfold raw_pos. cbn. lra.
Defined.

Lemma movetick_noise_bounded_witness :
  let self' := fst (movetick defaultparams 100 (1 / 2) true draws_in_order 0
                             boid_a) in
  Rabs (vget (heading self') ax0) <=
    Rabs (vget (heading boid_a) ax0) + noise defaultparams / 2 /\
  (bounce defaultparams = false ->
   Rabs (vget (heading self') ax0 - vget (heading boid_a) ax0) <=
     noise defaultparams / 2).
Proof.
  apply (movetick_noise_bounded defaultparams 100 (1 / 2) true draws_in_order 0
           boid_a ax0).
  - exact draws_in_order_unit.
  - cbn. lra.
Defined.

(** A boid on the right edge in bounce mode, two steps. *)
Lemma movetick_bounce_returns_witness :
  let self1 := fst (movetick (updatebounce defaultparams) 100 (1 / 2) false
                             draws_in_order 0 boid_leaving_right) in
  let self2 := fst (movetick (updatebounce defaultparams) 100 (1 / 2) false
                             draws_in_order 0 self1) in
  vget (pos self2) ax0 = vget (pos boid_leaving_right) ax0 /\
  vget (heading self2) ax0 = - vget (heading boid_leaving_right) ax0.
Proof.
  apply (movetick_bounce_returns (updatebounce defaultparams) 100 (1 / 2) (1 / 2)
           draws_in_order 0 0 boid_leaving_right ax0).
  - reflexivity.
  - cbn. lra.
  - left. unfold raw_pos. cbn. lra.
Defined.

(** The renderer as the script builds it: 50 boids in a square of 1000,
    here on top of globals left in another state. *)
Lemma boidrender_init_resets_globals_witness :
  snd (fst (boidrender_init 1000 50 draws_in_order 0 alignment_only)) =
  defaultparams.
Proof.
  apply (boidrender_init_resets_globals 1000 50 draws_in_order 0 alignment_only).
  reflexivity.
Defined.

Lemma boidrender_init_inside_witness :
  Forall (fun b => forall i, 0 <= vget (pos b) i < 1000)
         (fst (fst (boidrender_init 1000 50 draws_in_order 0 alignment_only))).
Proof.
  apply (boidrender_init_inside 1000 50 draws_in_order 0 alignment_only).
  - exact draws_in_order_unit.
  - lra.
Defined.

(** The heading loop on [boid_a; boid_b] under the default globals. *)
Lemma update_headings_keeps_places_witness :
  exists r,
    update_headings defaultparams [] [boid_a; boid_b] = Some r /\
    Forall2 same_place [boid_a; boid_b] r /\
    Forall (clamped defaultparams) r.
Proof.
  destruct (update_headings_shape defaultparams [boid_a; boid_b] [])
    as [r [Hr _]].
  cbn [app] in Hr. exists r. split; [exact Hr|].
  apply (update_headings_keeps_places defaultparams [boid_a; boid_b] r Hr).
Defined.

(** One tick on [boid_a; boid_b] under the default globals. *)
Lemma update_keeps_population_witness :
  exists r n,
    update defaultparams 100 draws_in_order 0 [boid_a; boid_b] = Some (r, n) /\
    n = (0 + 2 * length [boid_a; boid_b])%nat /\
    map idnum r = map idnum [boid_a; boid_b] /\
    length r = length [boid_a; boid_b].
Proof.
  destruct (update_shape defaultparams 100 draws_in_order 0 [boid_a; boid_b])
    as [r [Hr _]].
  exists r, (0 + 2 * length [boid_a; boid_b])%nat. split; [exact Hr|].
  apply (update_keeps_population defaultparams 100 draws_in_order 0 _
           [boid_a; boid_b] r Hr).
Defined.
